(** * Animation_with_JS: the coordinate, camera and data-mapping core

    A shallow embedding of the numeric core of the Remotion components
    [Camera2D], [NumberPlane2D], [HydraulicLines] and [HydraulicCylinder2D],
    with the properties of the design document stated and settled against it.

    Numbers.  A JavaScript [number] is an IEEE-754 double.  It is embedded
    here as an exact rational extended with the three non-finite values the
    code can produce ([NaN], [+Infinity], [-Infinity]); rounding, overflow and
    the sign of zero are abstracted away: every finite operation is exact.
    All theorems below are statements about this idealised arithmetic. *)

From Stdlib Require Import QArith Qround Qabs Qpower Qminmax Lqa ZArith Lia List Bool.
From Stdlib Require Import String Ascii Setoid Morphisms Sorted.
From Stdlib Require Import DecimalString DecimalNat.
Import ListNotations.

Set Implicit Arguments.

(* ================================================================== *)
(** ** JavaScript numbers *)
(* ================================================================== *)

Module JS.

Open Scope Q_scope.

(** [Inf false] is [+Infinity] and [Inf true] is [-Infinity]. *)
Inductive number : Type :=
| NaN : number
| Inf (negative : bool) : number
| Fin (q : Q) : number.

Definition Qlt_bool (x y : Q) : bool := negb (Qle_bool y x).

(** The value [v] of an optional property [v?: T]: [None] is [undefined]. *)
Definition default {A : Type} (d : A) (o : option A) : A :=
  match o with Some a => a | None => d end.

(** *** Arithmetic *)

Definition neg (x : number) : number :=
  match x with
  | NaN => NaN
  | Inf s => Inf (negb s)
  | Fin q => Fin (- q)
  end.

Definition add (x y : number) : number :=
  match x, y with
  | NaN, _ | _, NaN => NaN
  | Inf a, Inf b => if Bool.eqb a b then Inf a else NaN
  | Inf a, Fin _ => Inf a
  | Fin _, Inf b => Inf b
  | Fin p, Fin q => Fin (p + q)
  end.

Definition sub (x y : number) : number := add x (neg y).

Definition mul (x y : number) : number :=
  match x, y with
  | NaN, _ | _, NaN => NaN
  | Inf a, Inf b => Inf (xorb a b)
  | Inf a, Fin q | Fin q, Inf a =>
      if Qeq_bool q 0 then NaN else Inf (xorb a (Qlt_bool q 0))
  | Fin p, Fin q => Fin (p * q)
  end.

(** Division.  A finite non-zero number divided by zero is an infinity whose
    sign is the sign of the dividend (zero is unsigned here), [0/0] is [NaN]. *)
Definition div (x y : number) : number :=
  match x, y with
  | NaN, _ | _, NaN => NaN
  | Inf _, Inf _ => NaN
  | Inf a, Fin q => Inf (xorb a (Qlt_bool q 0))
  | Fin _, Inf _ => Fin 0
  | Fin p, Fin q =>
      if Qeq_bool q 0
      then (if Qeq_bool p 0 then NaN else Inf (Qlt_bool p 0))
      else Fin (p / q)
  end.

(** The remainder operator [%]: the result takes the sign of the dividend,
    [a % b = a - b * trunc(a / b)]. *)
Definition Qtrunc (q : Q) : Z :=
  if Qle_bool 0 q then Qfloor q else Qceiling q.

Definition rem (x y : number) : number :=
  match x, y with
  | NaN, _ | _, NaN => NaN
  | Inf _, _ => NaN
  | Fin p, Inf _ => Fin p
  | Fin p, Fin q =>
      if Qeq_bool q 0 then NaN
      else Fin (p - q * inject_Z (Qtrunc (p / q)))
  end.

(** *** Comparisons: every comparison with [NaN] is false *)

Definition ltb (x y : number) : bool :=
  match x, y with
  | NaN, _ | _, NaN => false
  | Inf a, Inf b => a && negb b
  | Inf a, Fin _ => a
  | Fin _, Inf b => negb b
  | Fin p, Fin q => Qlt_bool p q
  end.

Definition eqb (x y : number) : bool :=
  match x, y with
  | Inf a, Inf b => Bool.eqb a b
  | Fin p, Fin q => Qeq_bool p q
  | _, _ => false
  end.

Definition leb (x y : number) : bool := ltb x y || eqb x y.
Definition gtb (x y : number) : bool := ltb y x.
Definition geb (x y : number) : bool := leb y x.
Definition neb (x y : number) : bool := negb (eqb x y).

(** Truthiness of a number: [NaN] and [0] are falsy. *)
Definition truthy (x : number) : bool :=
  match x with
  | NaN => false
  | Inf _ => true
  | Fin q => negb (Qeq_bool q 0)
  end.

(** Truthiness of an optional number: [undefined] is falsy. *)
Definition truthy_opt (o : option number) : bool :=
  match o with Some x => truthy x | None => false end.

(** *** The [Math] object *)

Definition Math_max (x y : number) : number :=
  match x, y with
  | NaN, _ | _, NaN => NaN
  | _, _ => if ltb x y then y else x
  end.

Definition Math_min (x y : number) : number :=
  match x, y with
  | NaN, _ | _, NaN => NaN
  | _, _ => if ltb y x then y else x
  end.

Definition Math_abs (x : number) : number :=
  match x with
  | NaN => NaN
  | Inf _ => Inf false
  | Fin q => Fin (Qabs q)
  end.

Definition Math_ceil (x : number) : number :=
  match x with Fin q => Fin (inject_Z (Qceiling q)) | _ => x end.

(** [Math.round] rounds half-way cases towards [+Infinity]. *)
Definition Math_round (x : number) : number :=
  match x with Fin q => Fin (inject_Z (Qfloor (q + 0.5))) | _ => x end.

(** [Math.pow(x, 2)]: the square, exact in this arithmetic. *)
Definition Math_pow2 (x : number) : number := mul x x.

(** [Math.floor(Math.log10(x))].  The logarithm of a rational is irrational in
    general, so the two calls are embedded together: for [x = n/d > 0] the
    result is the integer [k] with [10^k <= x < 10^(k+1)], found by counting
    up from 0 when [x >= 1] and down from -1 when [x < 1].  As in JavaScript,
    [log10(0) = -Infinity] and the logarithm of a negative number is [NaN];
    [Math.floor] leaves non-finite values alone. *)
Fixpoint log10_up (fuel : nat) (n d k : Z) : Z :=
  match fuel with
  | O => k
  | S f => if (10 * d <=? n)%Z then log10_up f n (10 * d) (k + 1) else k
  end.

Fixpoint log10_down (fuel : nat) (n d k : Z) : Z :=
  match fuel with
  | O => k
  | S f => if (d <=? 10 * n)%Z then k else log10_down f (10 * n) d (k - 1)
  end.

Definition floor_log10 (q : Q) : Z :=
  let n := Qnum q in
  let d := Zpos (Qden q) in
  if (d <=? n)%Z
  then log10_up (S (Z.to_nat (Z.log2 n))) n d 0
  else log10_down (S (Z.to_nat (Z.log2 d))) n d (-1).

Definition Math_floor_log10 (x : number) : number :=
  match x with
  | NaN => NaN
  | Inf true => NaN
  | Inf false => Inf false
  | Fin q =>
      if Qlt_bool q 0 then NaN
      else if Qeq_bool q 0 then Inf true
      else Fin (inject_Z (floor_log10 q))
  end.

(** [Math.pow(10, y)] for the exponents [Math.floor] can return: an integer
    or a non-finite value. *)
Definition Math_pow10 (y : number) : number :=
  match y with
  | NaN => NaN
  | Inf true => Fin 0
  | Inf false => Inf false
  | Fin q => Fin (10 ^ Qfloor q)
  end.

(** *** Sameness of values

    [same] identifies finite values that are equal as rationals; unlike [===]
    it relates [NaN] to itself, so it is an equivalence. *)
Definition same (x y : number) : Prop :=
  match x, y with
  | NaN, NaN => True
  | Inf a, Inf b => a = b
  | Fin p, Fin q => p == q
  | _, _ => False
  end.

(** [Number.isFinite]. *)
Definition isFinite (x : number) : bool :=
  match x with Fin _ => true | _ => false end.

(** [within tol x y]: both values are finite and differ by at most [tol]. *)
Definition within (tol : Q) (x y : number) : Prop :=
  match x, y with
  | Fin a, Fin b => Qabs (a - b) <= tol
  | _, _ => False
  end.

End JS.

Import JS.
Declare Scope js_scope.
Delimit Scope js_scope with js.
Bind Scope js_scope with number.
Infix "+" := add : js_scope.
Infix "-" := sub : js_scope.
Infix "*" := mul : js_scope.
Infix "/" := div : js_scope.
Infix "%%" := rem (at level 40, left associativity) : js_scope.
Infix "<?" := ltb : js_scope.
Infix "<=?" := leb : js_scope.
Infix ">?" := gtb : js_scope.
Infix ">=?" := geb : js_scope.
Infix "=~" := same (at level 70, no associativity).

Infix "===" := eqb (at level 70, no associativity) : js_scope.
Infix "!==" := neb (at level 70, no associativity) : js_scope.

Open Scope js_scope.

(* ================================================================== *)
(** ** The part of Remotion the camera uses *)
(* ================================================================== *)

(** [interpolate] and [Easing] are imported from the [remotion] package, which
    is outside the repository.  The camera is embedded over an arbitrary
    implementation of them; [Remotion.api] below is the library's behaviour on
    a two-point, strictly increasing input range, used when a concrete camera
    is evaluated. *)

(** The two extrapolation modes the camera passes. *)
Inductive ExtrapolateType : Type := clamp | extend.

Record InterpolateOptions : Type := {
  extrapolateLeft : ExtrapolateType;
  extrapolateRight : ExtrapolateType;
  easingOption : number -> number
}.

Record RemotionAPI : Type := {
  interpolate :
    number -> number * number -> number * number -> InterpolateOptions -> number;
  Easing_linear : number -> number;
  Easing_quad : number -> number;
  Easing_in : (number -> number) -> number -> number;
  Easing_out : (number -> number) -> number -> number;
  Easing_inOut : (number -> number) -> number -> number
}.

Module Remotion.

Definition linear (t : number) : number := t.
Definition quad (t : number) : number := t * t.
Definition ease_in (f : number -> number) : number -> number := f.
Definition ease_out (f : number -> number) (t : number) : number :=
  Fin 1 - f (Fin 1 - t).
Definition ease_inOut (f : number -> number) (t : number) : number :=
  if t <? Fin 0.5 then f (t * Fin 2) / Fin 2
  else Fin 1 - f ((Fin 1 - t) * Fin 2) / Fin 2.

Definition interpolate2 (input : number) (inputRange outputRange : number * number)
    (o : InterpolateOptions) : number :=
  let '(inputMin, inputMax) := inputRange in
  let '(outputMin, outputMax) := outputRange in
  let result := input in
  let result :=
    if result <? inputMin then
      match extrapolateLeft o with clamp => inputMin | extend => result end
    else result in
  let result :=
    if result >? inputMax then
      match extrapolateRight o with clamp => inputMax | extend => result end
    else result in
  if outputMin === outputMax then outputMin
  else
    let result := (result - inputMin) / (inputMax - inputMin) in
    let result := easingOption o result in
    result * (outputMax - outputMin) + outputMin.

Definition api : RemotionAPI := {|
  interpolate := interpolate2;
  Easing_linear := linear;
  Easing_quad := quad;
  Easing_in := ease_in;
  Easing_out := ease_out;
  Easing_inOut := ease_inOut
|}.

End Remotion.

(* ================================================================== *)
(** ** Camera2D (components/Camera2D.tsx) *)
(* ================================================================== *)

Module Camera.

Record CameraState : Type := {
  centerX : number;
  centerY : number;
  width : number;
  height : number
}.

Inductive EasingName : Type := linear | easeInOut | easeIn | easeOut.

(** The numeric properties of [Camera2DProps]; [children], [backgroundFill]
    and the [onUpdate] observer do not take part in the computation. *)
Record Camera2DProps : Type := {
  startFrame : number;
  endFrame : number;
  initialState : CameraState;
  targetState : CameraState;
  sceneWidth : number;
  sceneHeight : number;
  easing : option EasingName;
  maintainAspectRatio : option bool;
  clampFrames : option bool;
  zoomMultiplier : option number;
  minWidth : option number;
  maxWidth : option number;
  minHeight : option number;
  maxHeight : option number
}.

(** What one evaluation of the component computes: the state handed to
    [onUpdate] and the three numbers of the CSS transform. *)
Record Camera2DFrame : Type := {
  state : CameraState;
  scale : number;
  translateX : number;
  translateY : number
}.

(** Lines 114-118, "Apply constraints": [if (minWidth) currentWidth =
    Math.max(currentWidth, minWidth)] and its three siblings, on the pair
    (currentWidth, currentHeight). *)
Definition applyConstraints (p : Camera2DProps) (wh : number * number)
    : number * number :=
  let '(currentWidth, currentHeight) := wh in
  let currentWidth :=
    if truthy_opt (minWidth p)
    then Math_max currentWidth (default NaN (minWidth p)) else currentWidth in
  let currentWidth :=
    if truthy_opt (maxWidth p)
    then Math_min currentWidth (default NaN (maxWidth p)) else currentWidth in
  let currentHeight :=
    if truthy_opt (minHeight p)
    then Math_max currentHeight (default NaN (minHeight p)) else currentHeight in
  let currentHeight :=
    if truthy_opt (maxHeight p)
    then Math_min currentHeight (default NaN (maxHeight p)) else currentHeight in
  (currentWidth, currentHeight).

(** Lines 120-125, "Apply Zoom Multiplier". *)
Definition applyZoom (p : Camera2DProps) (wh : number * number)
    : number * number :=
  let zoomMultiplier := default (Fin 1) (zoomMultiplier p) in
  let '(currentWidth, currentHeight) := wh in
  if zoomMultiplier !== Fin 1
  then (currentWidth / zoomMultiplier, currentHeight / zoomMultiplier)
  else (currentWidth, currentHeight).

(** Lines 127-139, "Aspect Ratio Correction". *)
Definition aspectCorrection (p : Camera2DProps) (wh : number * number)
    : number * number :=
  let maintainAspectRatio := default true (maintainAspectRatio p) in
  let '(currentWidth, currentHeight) := wh in
  if maintainAspectRatio
  then let sceneAspect := sceneWidth p / sceneHeight p in
       (currentWidth, currentWidth / sceneAspect)
  else (currentWidth, currentHeight).

Section WithRemotion.

Variable R : RemotionAPI.

Definition getEasing (type : EasingName) : number -> number :=
  match type with
  | linear => Easing_linear R
  | easeIn => Easing_in R (Easing_quad R)
  | easeOut => Easing_out R (Easing_quad R)
  | easeInOut => Easing_inOut R (Easing_quad R)
  end.

(** Lines 76-112: the four interpolated values, before any adjustment. *)
Definition interpolated (p : Camera2DProps) (frame : number) : CameraState :=
  let easingFn := getEasing (default easeInOut (easing p)) in
  let clampFrames := default true (clampFrames p) in
  let interpolateConfig := {|
    extrapolateLeft := if clampFrames then clamp else extend;
    extrapolateRight := if clampFrames then clamp else extend;
    easingOption := easingFn
  |} in
  let range := (startFrame p, endFrame p) in
  let lerp (a b : number) := interpolate R frame range (a, b) interpolateConfig in
  {| centerX := lerp (centerX (initialState p)) (centerX (targetState p));
     centerY := lerp (centerY (initialState p)) (centerY (targetState p));
     width := lerp (width (initialState p)) (width (targetState p));
     height := lerp (height (initialState p)) (height (targetState p)) |}.

(** One evaluation of the component body for the current [frame]: the blocks
    above in source order, then the transform of lines 154-170. *)
Definition Camera2D (p : Camera2DProps) (frame : number) : Camera2DFrame :=
  let sceneWidth := sceneWidth p in
  let sceneHeight := sceneHeight p in
  let i := interpolated p frame in
  let currentCenterX := centerX i in
  let currentCenterY := centerY i in
  let wh := (width i, height i) in
  let wh := applyConstraints p wh in
  let wh := applyZoom p wh in
  let '(currentWidth, currentHeight) := aspectCorrection p wh in
  let scale := sceneWidth / currentWidth in
  let translateX := sceneWidth / Fin 2 - currentCenterX * scale in
  let translateY := sceneHeight / Fin 2 - currentCenterY * scale in
  {| state := {| centerX := currentCenterX; centerY := currentCenterY;
                 width := currentWidth; height := currentHeight |};
     scale := scale;
     translateX := translateX;
     translateY := translateY |}.

End WithRemotion.

(** The CSS transform [translate(tx, ty) scale(s)] with origin [0 0], which
    the component puts on its inner container, sends a world point to
    [worldPt * scale + translate]. *)
Definition toScreen (f : Camera2DFrame) (world : number * number)
    : number * number :=
  (fst world * scale f + translateX f, snd world * scale f + translateY f).

(** [p] with its four size bounds replaced. *)
Definition withBounds (p : Camera2DProps)
    (minW maxW minH maxH : option number) : Camera2DProps :=
  {| startFrame := startFrame p; endFrame := endFrame p;
     initialState := initialState p; targetState := targetState p;
     sceneWidth := sceneWidth p; sceneHeight := sceneHeight p;
     easing := easing p; maintainAspectRatio := maintainAspectRatio p;
     clampFrames := clampFrames p; zoomMultiplier := zoomMultiplier p;
     minWidth := minW; maxWidth := maxW;
     minHeight := minH; maxHeight := maxH |}.

(** A bound that is present but equal to zero, turned into an absent one. *)
Definition dropZero (bound : option number) : option number :=
  match bound with
  | Some (Fin q) => if Qeq_bool q 0 then None else bound
  | _ => bound
  end.

(** The post-interpolation adjustments in the words of the design document.
    A bound is "given" when the property is present and passes the
    component's test [if (bound)]. *)
Definition given (bound : option number) : bool := truthy_opt bound.

Definition spec_clamp (lo hi : option number) (v : number) : number :=
  match given lo, given hi with
  | true, true => Math_min (Math_max v (default NaN lo)) (default NaN hi)
  | true, false => Math_max v (default NaN lo)
  | false, true => Math_min v (default NaN hi)
  | false, false => v
  end.

Definition spec_step1 (p : Camera2DProps) (wh : number * number) :=
  (spec_clamp (minWidth p) (maxWidth p) (fst wh),
   spec_clamp (minHeight p) (maxHeight p) (snd wh)).

Definition spec_step2 (p : Camera2DProps) (wh : number * number) :=
  let zoom := default (Fin 1) (zoomMultiplier p) in
  (fst wh / zoom, snd wh / zoom).

Definition spec_step3 (p : Camera2DProps) (wh : number * number) :=
  if default true (maintainAspectRatio p)
  then (fst wh, fst wh / (sceneWidth p / sceneHeight p))
  else wh.

(** [p] with its zoom multiplier replaced. *)
Definition withZoom (p : Camera2DProps) (zoom : option number) : Camera2DProps :=
  {| startFrame := startFrame p; endFrame := endFrame p;
     initialState := initialState p; targetState := targetState p;
     sceneWidth := sceneWidth p; sceneHeight := sceneHeight p;
     easing := easing p; maintainAspectRatio := maintainAspectRatio p;
     clampFrames := clampFrames p; zoomMultiplier := zoom;
     minWidth := minWidth p; maxWidth := maxWidth p;
     minHeight := minHeight p; maxHeight := maxHeight p |}.

End Camera.

(** The camera of components/CameraDemo.tsx: two seconds from the full
    1920 x 1080 scene to a 600 wide box centred at (300, 300). *)
Definition CameraDemo_props : Camera.Camera2DProps := {|
  Camera.startFrame := Fin 0;
  Camera.endFrame := Fin 120;
  Camera.initialState := {|
    Camera.centerX := Fin 960; Camera.centerY := Fin 540;
    Camera.width := Fin 1920; Camera.height := Fin 1080 |};
  Camera.targetState := {|
    Camera.centerX := Fin 300; Camera.centerY := Fin 300;
    Camera.width := Fin 600;
    Camera.height := Fin 1080 * (Fin 600 / Fin 1920) |};
  Camera.sceneWidth := Fin 1920;
  Camera.sceneHeight := Fin 1080;
  Camera.easing := None;
  Camera.maintainAspectRatio := None;
  Camera.clampFrames := None;
  Camera.zoomMultiplier := None;
  Camera.minWidth := None;
  Camera.maxWidth := None;
  Camera.minHeight := None;
  Camera.maxHeight := None
|}.

(* ================================================================== *)
(** ** NumberPlane2D (components/NumberPlane2D.tsx) *)
(* ================================================================== *)

Module NumberPlane.

(** Helper: nice number steps (lines 94-104). *)
Definition getNiceStep (range : number) (targetTicks : option number) : number :=
  let targetTicks := default (Fin 5) targetTicks in
  let rawStep := range / targetTicks in
  let mag := Math_pow10 (Math_floor_log10 rawStep) in
  let normalized := rawStep / mag in
  if normalized <? Fin 1.5 then Fin 1 * mag
  else if normalized <? Fin 3.5 then Fin 2 * mag
  else if normalized <? Fin 7.5 then Fin 5 * mag
  else Fin 10 * mag.

(** The properties the coordinate system is computed from. *)
Record NumberPlane2DProps : Type := {
  width : number;
  height : number;
  xRange : number * number;
  yRange : number * number;
  padding : option number
}.

Section CoordinateSystem.

Variable props : NumberPlane2DProps.

(** 1. Setup coordinate system (lines 147-156). *)
Definition xMin : number := fst (xRange props).
Definition xMax : number := snd (xRange props).
Definition yMin : number := fst (yRange props).
Definition yMax : number := snd (yRange props).
Definition xSpan : number := xMax - xMin.
Definition ySpan : number := yMax - yMin.

Definition plotX : number := default (Fin 20) (padding props).
Definition plotY : number := default (Fin 20) (padding props).
Definition plotW : number := width props - Fin 2 * default (Fin 20) (padding props).
Definition plotH : number := height props - Fin 2 * default (Fin 20) (padding props).

(** Mapping functions (lines 159-161); screen Y grows downwards. *)
Definition mapX (val : number) : number :=
  plotX + ((val - xMin) / xSpan) * plotW.

Definition mapY (val : number) : number :=
  plotY + plotH - ((val - yMin) / ySpan) * plotH.

End CoordinateSystem.

(** Generate tick/grid values (lines 171-178).  The [for] loop runs while
    [v <= max + 1e-9]; [fuel] bounds the number of iterations and [None]
    means the bound was reached with the loop still running. *)
Fixpoint getTicks_loop (fuel : nat) (v max step : number)
    : option (list number) :=
  match fuel with
  | O => None
  | S fuel' =>
      if v <=? max + Fin 0.000000001
      then option_map (cons v) (getTicks_loop fuel' (v + step) max step)
      else Some []
  end.

Definition getTicks (fuel : nat) (min max step : number)
    : option (list number) :=
  let start := Math_ceil (min / step) * step in
  getTicks_loop fuel start max step.

(** A plane with finite properties. *)
Definition plane (w h x0 x1 y0 y1 : Q) (pad : option Q) : NumberPlane2DProps :=
  {| width := Fin w; height := Fin h;
     xRange := (Fin x0, Fin x1); yRange := (Fin y0, Fin y1);
     padding := option_map Fin pad |}.

(** [a || b] for an optional number [a]: [b] when [a] is [undefined], [0]
    or [NaN]. *)
Definition orElse (a : option number) (b : number) : number :=
  match a with
  | Some v => if truthy v then v else b
  | None => b
  end.

(** 2. Compute ticks and grid steps (lines 164-168); [tickStep] is the field
    of [xAxisConfig] or [yAxisConfig], [xMajorStep], [yMajorStep] and
    [majorStep] are the fields of [grid]. *)
Definition xStep (props : NumberPlane2DProps) (tickStep : option number) : number :=
  orElse tickStep (getNiceStep (xSpan props) (Some (Fin 8))).

Definition yStep (props : NumberPlane2DProps) (tickStep : option number) : number :=
  orElse tickStep (getNiceStep (ySpan props) (Some (Fin 5))).

Definition xGridStep (props : NumberPlane2DProps)
    (xMajorStep majorStep tickStep : option number) : number :=
  orElse xMajorStep (orElse majorStep (xStep props tickStep)).

Definition yGridStep (props : NumberPlane2DProps)
    (yMajorStep majorStep tickStep : option number) : number :=
  orElse yMajorStep (orElse majorStep (yStep props tickStep)).

(** Axis ticks (lines 184-185). *)
Definition xAxisTicks (fuel : nat) (props : NumberPlane2DProps)
    (tickStep : option number) : option (list number) :=
  getTicks fuel (xMin props) (xMax props) (xStep props tickStep).

Definition yAxisTicks (fuel : nat) (props : NumberPlane2DProps)
    (tickStep : option number) : option (list number) :=
  getTicks fuel (yMin props) (yMax props) (yStep props tickStep).

(** The screen position of the X axis (lines 262-264) and of the Y axis
    (lines 337-340). *)
Definition finalAxisY (props : NumberPlane2DProps) : number :=
  let finalAxisY := mapY props (Fin 0) in
  if yMin props >? Fin 0 then mapY props (yMin props)
  else if yMax props <? Fin 0 then mapY props (yMax props)
  else finalAxisY.

Definition finalAxisX (props : NumberPlane2DProps) : number :=
  let finalAxisX := mapX props (Fin 0) in
  if xMin props >? Fin 0 then mapX props (xMin props)
  else if xMax props <? Fin 0 then mapX props (xMax props)
  else finalAxisX.

(** 5. Plot rendering (lines 423-495).  [xValues] is either one array of
    numbers shared by all series or one array per series. *)
Inductive XValues : Type :=
| Shared (xs : list number)
| PerSeries (xss : list (list number)).

(** "Resolve X Values" (lines 427-435); a missing entry of a per-series
    [xValues] is replaced by the empty array. *)
Definition seriesX (xValues : XValues) (seriesIdx : nat) : list number :=
  match xValues with
  | PerSeries xss => nth seriesIdx xss []
  | Shared xs => xs
  end.

(** The array [renderedPoints] of one series (lines 437-455), [None] when
    the series is skipped because it has fewer than two values on either
    axis.  An index outside an array reads [undefined], here [NaN]; the loop
    never does. *)
Definition renderedPoints (props : NumberPlane2DProps) (xValues : XValues)
    (seriesIdx : nat) (seriesY : list number) : option (list (number * number)) :=
  let seriesX := seriesX xValues seriesIdx in
  if (List.length seriesX <? 2)%nat || (List.length seriesY <? 2)%nat then None
  else
    let len := Nat.min (List.length seriesX) (List.length seriesY) in
    Some (map (fun i => (mapX props (nth i seriesX NaN),
                         mapY props (nth i seriesY NaN)))
              (seq 0 len)).

End NumberPlane.

(* ================================================================== *)
(** ** Exceptions *)
(* ================================================================== *)

(** The outcome of evaluating code that may throw.  The only exception the
    embedded code could raise is the [TypeError] of reading a property of
    [undefined]. *)
Inductive completion (A : Type) : Type :=
| Normal (a : A)
| Throw_TypeError.

Arguments Normal {A} a.
Arguments Throw_TypeError {A}.

Definition bind {A B : Type} (c : completion A) (k : A -> completion B)
    : completion B :=
  match c with
  | Normal a => k a
  | Throw_TypeError => Throw_TypeError
  end.

Notation "x <- c ;; k" := (bind c (fun x => k))
  (at level 61, c at next level, right associativity).

(** Evaluate [f] at each index in order, stopping at the first exception. *)
Fixpoint forEach {A B : Type} (f : A -> completion B) (l : list A)
    : completion (list B) :=
  match l with
  | [] => Normal []
  | a :: l' => b <- f a ;; bs <- forEach f l' ;; Normal (b :: bs)
  end.

(* ================================================================== *)
(** ** Strings: the regular expression and [parseFloat] *)
(* ================================================================== *)

Module Text.

Definition isDigit (c : ascii) : bool :=
  let n := nat_of_ascii c in ((48 <=? n) && (n <=? 57))%nat.

(** The class [[-\d.]]. *)
Definition isNumChar (c : ascii) : bool :=
  isDigit c || Ascii.eqb c "-" || Ascii.eqb c ".".

(** The class [[, ]]. *)
Definition isSeparator (c : ascii) : bool :=
  Ascii.eqb c "," || Ascii.eqb c " ".

(** The longest prefix of characters satisfying [f], and the rest. *)
Fixpoint span (f : ascii -> bool) (s : list ascii) : list ascii * list ascii :=
  match s with
  | c :: s' =>
      if f c then let '(run, rest) := span f s' in (c :: run, rest)
      else ([], s)
  | [] => ([], [])
  end.

(** One attempt to match [/([-\d.]+)[, ]+([-\d.]+)/] at the start of [s]:
    the two captured groups and the text after the match.  The three
    quantifiers are greedy and the two classes are disjoint, so each run is
    the longest one and giving characters back cannot turn a failure into a
    match. *)
Definition matchHere (s : list ascii)
    : option (list ascii * list ascii * list ascii) :=
  let '(g1, r1) := span isNumChar s in
  match g1 with
  | [] => None
  | _ =>
      let '(sep, r2) := span isSeparator r1 in
      match sep with
      | [] => None
      | _ =>
          let '(g2, r3) := span isNumChar r2 in
          match g2 with
          | [] => None
          | _ => Some (g1, g2, r3)
          end
      end
  end.

(** [d.matchAll(re)] with the global flag: the leftmost match, then the
    search resumes where that match ended; where no match starts the search
    moves one character on.  [fuel] bounds the number of steps, one more than
    the length of the text is enough. *)
Fixpoint matchAll_from (fuel : nat) (s : list ascii)
    : list (list ascii * list ascii) :=
  match fuel with
  | O => []
  | S fuel' =>
      match matchHere s with
      | Some (g1, g2, rest) => (g1, g2) :: matchAll_from fuel' rest
      | None =>
          match s with
          | [] => []
          | _ :: s' => matchAll_from fuel' s'
          end
      end
  end.

Definition matchAll (d : string) : list (list ascii * list ascii) :=
  let s := list_ascii_of_string d in
  matchAll_from (S (List.length s)) s.

(** The value of a run of decimal digits. *)
Definition digitValue (c : ascii) : Z := Z.of_nat (nat_of_ascii c - 48).

Definition digitsValue (ds : list ascii) : Z :=
  fold_left (fun acc c => (10 * acc + digitValue c)%Z) ds 0%Z.

(** [parseFloat] on a text made of the characters [-], [.] and digits (all
    the regular expression captures): an optional sign, digits, an optional
    point and digits, read as far as they go; [NaN] when no digit is found.
    The decimal numeral is taken exactly. *)
Definition parseFloat (s : list ascii) : number :=
  let '(negative, s1) :=
    match s with
    | c :: r => if Ascii.eqb c "-" then (true, r) else (false, s)
    | [] => (false, s)
    end in
  let '(intPart, r1) := span isDigit s1 in
  let fracPart :=
    match r1 with
    | c :: r => if Ascii.eqb c "." then fst (span isDigit r) else []
    | [] => []
    end in
  match intPart, fracPart with
  | [], [] => NaN
  | _, _ =>
      let v := (inject_Z (digitsValue intPart)
                + inject_Z (digitsValue fracPart)
                  / inject_Z (10 ^ Z.of_nat (List.length fracPart)))%Q in
      Fin (if negative then (- v)%Q else v)
  end.

(** The decimal numeral of a natural number, as a list of characters. *)
Definition decimal (n : nat) : list ascii :=
  list_ascii_of_string (NilEmpty.string_of_uint (Nat.to_uint n)).

(** [rest] is empty or begins with a character outside the class [f]: a
    greedy run of [f] stops in front of it. *)
Definition stops (f : ascii -> bool) (rest : list ascii) : Prop :=
  match rest with
  | [] => True
  | c :: _ => f c = false
  end.

(** [n.toString(16)] for an integer [n], and [padStart(2, "0")]. *)
Definition hexDigit (n : Z) : ascii :=
  ascii_of_nat (Z.to_nat (if (n <? 10)%Z then 48 + n else 87 + n)%Z).

Fixpoint hexDigits (fuel : nat) (n : Z) (acc : string) : string :=
  match fuel with
  | O => acc
  | S fuel' =>
      let acc' := String (hexDigit (n mod 16)) acc in
      if (n <? 16)%Z then acc' else hexDigits fuel' (n / 16) acc'
  end.

Definition toString16 (n : Z) : string :=
  if (n <? 0)%Z
  then String "-" (hexDigits (S (Z.to_nat (Z.log2 (- n)))) (- n) EmptyString)
  else hexDigits (S (Z.to_nat (Z.log2 n))) n EmptyString.

Definition padStart2 (s : string) : string :=
  match String.length s with
  | O => "00"
  | S O => String "0" s
  | _ => s
  end.

(** A CSS colour of the form [#rrggbb]: a hash sign and six lower-case
    hexadecimal digits. *)
Definition isHexDigit (c : ascii) : bool :=
  isDigit c
  || ((97 <=? nat_of_ascii c)%nat && (nat_of_ascii c <=? 102)%nat).

Fixpoint allHexDigits (s : string) : bool :=
  match s with
  | EmptyString => true
  | String c s' => isHexDigit c && allHexDigits s'
  end.

(** Exactly two hexadecimal digits. *)
Definition hexPair (s : string) : bool :=
  match s with
  | String c1 (String c2 EmptyString) => isHexDigit c1 && isHexDigit c2
  | _ => false
  end.

Definition isHexColor (s : string) : bool :=
  match s with
  | String "#" rest => (String.length rest =? 6)%nat && allHexDigits rest
  | _ => false
  end.

End Text.

(* ================================================================== *)
(** ** The pressure colour ramp *)
(* ================================================================== *)

Module ColorRamp.

Record Stop : Type := { offset : number; color : number * number * number }.

(** Blue(0), Green(0.33), Yellow(0.66), Red(1.0). *)
Definition stops : list Stop :=
  [ {| offset := Fin 0.0;  color := (Fin 0, Fin 0, Fin 255) |};
    {| offset := Fin 0.33; color := (Fin 0, Fin 255, Fin 0) |};
    {| offset := Fin 0.66; color := (Fin 255, Fin 255, Fin 0) |};
    {| offset := Fin 1.0;  color := (Fin 255, Fin 0, Fin 0) |} ].

Definition lerp (a b t : number) : number := a + (b - a) * t.

(** [Math.round(c).toString(16).padStart(2, "0")]. *)
Definition toHex (c : number) : string :=
  match Math_round c with
  | NaN => "NaN"
  | Inf false => "Infinity"
  | Inf true => "-Infinity"
  | Fin q => Text.padStart2 (Text.toString16 (Qfloor q))
  end.

Definition rgbToHex (r g b : number) : string :=
  ("#" ++ toHex r ++ toHex g ++ toHex b)%string.

(** The loop over [i = 0 .. stops.length - 2], with [start = stops[i]] and
    [rest] the stops after it: the first pair of neighbouring stops whose
    offsets enclose [t] gives the colour; [None] when the loop ends without
    returning. *)
Fixpoint findSegmentFrom (t : number) (start : Stop) (rest : list Stop)
    : option string :=
  match rest with
  | [] => None
  | end_ :: rest' =>
      if (t >=? offset start) && (t <=? offset end_)
      then
        let localT := (t - offset start) / (offset end_ - offset start) in
        let '(r0, g0, b0) := color start in
        let '(r1, g1, b1) := color end_ in
        let r := lerp r0 r1 localT in
        let g := lerp g0 g1 localT in
        let b := lerp b0 b1 localT in
        Some (rgbToHex r g b)
      else findSegmentFrom t end_ rest'
  end.

Definition findSegment (t : number) (ss : list Stop) : option string :=
  match ss with
  | [] => None
  | start :: rest => findSegmentFrom t start rest
  end.

(** [Math.max(0, Math.min(p, max)) / max]. *)
Definition normalize (p max : number) : number :=
  Math_max (Fin 0) (Math_min p max) / max.

(** The body shared by the two copies of [getColor], from the normalisation
    on: [max] is the component's maximum pressure. *)
Definition colorAt (p max : number) : string :=
  let t := normalize p max in
  match findSegment t stops with
  | Some hex => hex
  | None => "#ff0000"
  end.

End ColorRamp.

(* ================================================================== *)
(** ** HydraulicCylinder2D (components/HydraulicCylinder2D.tsx) *)
(* ================================================================== *)

Module HydraulicCylinder.

(** [getColor] (lines 87-126); [maxP] is the property, 300 when omitted. *)
Definition getColor (maxP : option number) (p : number) : string :=
  let maxP := default (Fin 300) maxP in
  let max := if truthy maxP then maxP else Fin 300 in
  ColorRamp.colorAt p max.

(** The geometry inside the 400 x 150 view box (lines 35-62). *)
Definition vbHeight : number := Fin 150.
Definition cylinderLength : number := Fin 200.
Definition cylinderDiameter : number := Fin 150.
Definition cylinderX : number := Fin 50.
Definition cylinderY : number := (vbHeight - cylinderDiameter) / Fin 2.
Definition wallThickness : number := Fin 6.
Definition pistonWidth : number := Fin 25.

Definition minPistonX : number := cylinderX + wallThickness.
Definition maxPistonX : number :=
  cylinderX + cylinderLength - wallThickness - pistonWidth.

(** [pistonPosition] is the property, 0.5 when omitted. *)
Definition currentPistonX (pistonPosition : option number) : number :=
  let pistonPosition := default (Fin 0.5) pistonPosition in
  minPistonX
  + (maxPistonX - minPistonX) * Math_min (Math_max pistonPosition (Fin 0)) (Fin 1).

Definition rodX (pistonPosition : option number) : number :=
  currentPistonX pistonPosition + pistonWidth.

(** The widths of the two chamber rectangles (lines 257 and 268). *)
Definition capChamberWidth (pistonPosition : option number) : number :=
  Math_max (Fin 0) (currentPistonX pistonPosition - cylinderX).

Definition rodChamberWidth (pistonPosition : option number) : number :=
  Math_max (Fin 0)
    ((cylinderX + cylinderLength) - (currentPistonX pistonPosition + pistonWidth)).

(** The force arrow (lines 133-199): the attributes of the shaft [<line>]
    and the three corners written into the [points] of the head
    [<polygon>], tip first. *)
Record ForceArrow : Type := {
  x1 : number;
  y1 : number;
  x2 : number;
  y2 : number;
  strokeWidth : number;
  headPoints : list (number * number)
}.

(** [renderForceArrow]; [F] and [F_scale] are the properties, 0 and 80 when
    omitted, and [None] is the [null] returned for a force that is
    effectively 0. *)
Definition renderForceArrow (pistonPosition F F_scale : option number)
    : option ForceArrow :=
  let F := default (Fin 0) F in
  let F_scale := default (Fin 80) F_scale in
  let currentPistonX := currentPistonX pistonPosition in
  if Math_abs F <? Fin 0.001 then None
  else
    let isPositive := F >? Fin 0 in
    let absF := Math_abs F in
    let scale := if truthy F_scale then F_scale else Fin 80 in
    let baseLen := Fin 40 in
    let variableLen := absF * scale in
    let arrowLength := baseLen + variableLen in
    let baseWidth := Fin 6 in
    let variableWidth := absF * (scale * Fin 0.3) in
    let arrowWidth := baseWidth + variableWidth in
    let arrowHeadSize := arrowWidth * Fin 2.5 in
    let cy := cylinderY + cylinderDiameter / Fin 2 in
    let '(startX, endX, headPoints) :=
      if isPositive then
        let endX := currentPistonX - Fin 10 in
        let startX := endX - arrowLength in
        (startX, endX,
         [(endX, cy); (endX - arrowHeadSize, cy - arrowHeadSize);
          (endX - arrowHeadSize, cy + arrowHeadSize)])
      else
        let endX := currentPistonX + pistonWidth + Fin 10 in
        let startX := endX + arrowLength in
        (startX, endX,
         [(endX, cy); (endX + arrowHeadSize, cy - arrowHeadSize);
          (endX + arrowHeadSize, cy + arrowHeadSize)]) in
    Some {| x1 := startX;
            y1 := cy;
            x2 := if isPositive then endX - arrowHeadSize + Fin 2
                  else endX + arrowHeadSize - Fin 2;
            y2 := cy;
            strokeWidth := arrowWidth;
            headPoints := headPoints |}.

End HydraulicCylinder.

(* ================================================================== *)
(** ** HydraulicLines (components/HydraulicLines.tsx) *)
(* ================================================================== *)

Module HydraulicLines.

Record Point : Type := { x : number; y : number }.

Record Segment : Type := {
  p1 : Point;
  p2 : Point;
  length : number;
  cumulative : number
}.

(** The properties the computations read. *)
Record HydraulicLinesProps : Type := {
  pathA : string;
  pathB : string;
  pressureA : option number;
  pressureB : option number;
  flowA : option number;
  flowB : option number;
  maxFlow : option number;
  maxPressure : option number;
  dotSize : option number
}.

(** A flow dot: the [key], [cx], [cy] and [r] of the [<circle>]. *)
Record Dot : Type := { key : nat; cx : number; cy : number; r : number }.

(** Lines 27-30: the coordinate pairs found in the path text. *)
Definition parseCoords (d : string) : list Point :=
  map (fun m => {| x := Text.parseFloat (fst m); y := Text.parseFloat (snd m) |})
      (Text.matchAll d).

(** [getColor] (lines 77-105). *)
Definition getColor (props : HydraulicLinesProps) (p : number) : string :=
  let max := default (Fin 300) (maxPressure props) in
  ColorRamp.colorAt p max.

Section WithSqrt.

(** [Math.sqrt]; its value at a rational is irrational in general, so the
    sampler is embedded over any implementation of it. *)
Variable Math_sqrt : number -> number.

(** Lines 35-43: the loop over [i = 0 .. coords.length - 2], with
    [p1 = coords[i]] and [rest] the points after it; [totalLength] is the
    running sum on entry.  It returns the segments and the total length. *)
Fixpoint segmentsFrom (p1 : Point) (rest : list Point) (totalLength : number)
    : list Segment * number :=
  match rest with
  | [] => ([], totalLength)
  | p2 :: rest' =>
      let dist := Math_sqrt (Math_pow2 (x p2 - x p1) + Math_pow2 (y p2 - y p1)) in
      let '(segments, total) := segmentsFrom p2 rest' (totalLength + dist) in
      ({| p1 := p1; p2 := p2; length := dist; cumulative := totalLength |}
         :: segments, total)
  end.

Definition buildSegments (coords : list Point) : list Segment * number :=
  match coords with
  | [] => ([], Fin 0)
  | p1 :: rest => segmentsFrom p1 rest (Fin 0)
  end.

(** Lines 50-57: interpolate within the chosen segment. *)
Definition interpolateWithin (segment : Segment) (targetLength : number) : Point :=
  let segmentOffset := targetLength - cumulative segment in
  let segmentT :=
    if length segment === Fin 0 then Fin 0
    else segmentOffset / length segment in
  {| x := x (p1 segment) + (x (p2 segment) - x (p1 segment)) * segmentT;
     y := y (p1 segment) + (y (p2 segment) - y (p1 segment)) * segmentT |}.

(** [getPointOnPolyline] (lines 20-58).  [segments.find(...) ||
    segments[segments.length - 1]] is [undefined] when there is no segment,
    and reading [segment.cumulative] would then throw. *)
Definition getPointOnPolyline (d : string) (t : number) : completion Point :=
  let coords := parseCoords d in
  if (List.length coords <? 2)%nat then Normal {| x := Fin 0; y := Fin 0 |}
  else
    let '(segments, totalLength) := buildSegments coords in
    let targetLength := t * totalLength in
    let found :=
      find (fun s => (targetLength >=? cumulative s)
                     && (targetLength <=? cumulative s + length s)) segments in
    let segment :=
      match found with
      | Some s => Some s
      | None => nth_error segments (List.length segments - 1)
      end in
    match segment with
    | None => Throw_TypeError
    | Some segment => Normal (interpolateWithin segment targetLength)
    end.

(** [renderDots] (lines 111-143); [None] is the [null] returned for a flow
    below the threshold. *)
Definition renderDots (props : HydraulicLinesProps) (frame : number)
    (path : string) (flow : number) : completion (option (list Dot)) :=
  let maxFlow := default (Fin 100) (maxFlow props) in
  let dotSize := default (Fin 6) (dotSize props) in
  if Math_abs flow <? Fin 0.01 then Normal None
  else
    let normFlow := Math_max (Fin (-1)) (Math_min (Fin 1) (flow / maxFlow)) in
    let numDots := 8%nat in
    let speed := normFlow * Fin 0.01 in
    dots <- forEach (fun i : nat =>
        let initialOffset :=
          Fin (inject_Z (Z.of_nat i)) / Fin (inject_Z (Z.of_nat numDots)) in
        let t := (frame * speed + initialOffset) %% Fin 1 in
        let t := if t <? Fin 0 then t + Fin 1 else t in
        pos <- getPointOnPolyline path t ;;
        Normal {| key := i; cx := x pos; cy := y pos; r := dotSize |})
      (seq 0 numDots) ;;
    Normal (Some dots).

End WithSqrt.

(** [Math.sqrt] rounded up to a multiple of [2^-32]: an implementation of the
    square root that can be evaluated. *)
Definition Qsqrt_up (q : Q) : Q :=
  Z.sqrt_up (Qceiling (q * inject_Z (2 ^ 64))) # (2 ^ 32).

Definition sqrt_up (v : number) : number :=
  match v with
  | NaN => NaN
  | Inf true => NaN
  | Inf false => Inf false
  | Fin q => if Qlt_bool q 0 then NaN else Fin (Qsqrt_up q)
  end.

(** What the proofs need of a square root: on a finite non-negative argument
    it is finite and non-negative, and zero exactly at zero. *)
Definition sqrt_spec (f : number -> number) : Prop :=
  forall q : Q, (0 <= q)%Q ->
    exists r : Q, f (Fin q) = Fin r /\ (0 <= r)%Q /\ (r == 0 <-> q == 0)%Q.

(** A point with finite coordinates. *)
Definition point (xy : Q * Q) : Point := {| x := Fin (fst xy); y := Fin (snd xy) |}.

(** Two points with the same coordinates. *)
Definition samePoint (a b : Point) : Prop := x a =~ x b /\ y a =~ y b.

(** The properties of the pipes of CylinderPreview.tsx. *)
Definition CylinderPreview_lines : HydraulicLinesProps := {|
  pathA := "M 520,905 L 520,774 L 320,774";
  pathB := "M 680,905 L 680,572 L 320,572";
  pressureA := None; pressureB := None;
  flowA := None; flowB := None;
  maxFlow := Some (Fin 100);
  maxPressure := None;
  dotSize := Some (Fin 5)
|}.

(** The same pipes with a given [maxPressure]. *)
Definition linesWithMaxPressure (m : number) : HydraulicLinesProps := {|
  pathA := pathA CylinderPreview_lines;
  pathB := pathB CylinderPreview_lines;
  pressureA := None; pressureB := None;
  flowA := None; flowB := None;
  maxFlow := maxFlow CylinderPreview_lines;
  maxPressure := Some m;
  dotSize := dotSize CylinderPreview_lines
|}.

(** *** The segments of a path with finite points, over the rationals *)

Record QSegment : Type := {
  q1 : Q * Q;
  q2 : Q * Q;
  qlength : Q;
  qcumulative : Q
}.

Definition segmentOf (s : QSegment) : Segment :=
  {| p1 := point (q1 s); p2 := point (q2 s);
     length := Fin (qlength s); cumulative := Fin (qcumulative s) |}.

(** The test of [segments.find] in [getPointOnPolyline]. *)
Definition hits (targetLength : number) (s : Segment) : bool :=
  (targetLength >=? cumulative s) && (targetLength <=? cumulative s + length s).

Section Chain.

Variable Math_sqrt : number -> number.

Definition dist (a b : Point) : number :=
  Math_sqrt (Math_pow2 (x b - x a) + Math_pow2 (y b - y a)).

Definition Qdist (a b : Q * Q) : Q :=
  match dist (point a) (point b) with Fin r => r | _ => 0%Q end.

Fixpoint chain (a : Q * Q) (rest : list (Q * Q)) (c : Q)
    : list QSegment * Q :=
  match rest with
  | [] => ([], c)
  | b :: rest' =>
      let '(segs, total) := chain b rest' (c + Qdist a b)%Q in
      ({| q1 := a; q2 := b; qlength := Qdist a b; qcumulative := c |} :: segs,
       total)
  end.

End Chain.

(** [pt] lies on the polyline through [pts]: it is [a + k (b - a)] for two
    consecutive points [a], [b] of [pts] and some [k] in [0, 1]. *)
Definition onPolyline (pts : list (Q * Q)) (pt : Point) : Prop :=
  exists (i : nat) (a b : Q * Q) (k : Q),
    nth_error pts i = Some a /\ nth_error pts (S i) = Some b
    /\ (0 <= k)%Q /\ (k <= 1)%Q
    /\ samePoint pt (point (fst a + (fst b - fst a) * k,
                            snd a + (snd b - snd a) * k)%Q).

(** The path text [M x,y L x,y L x,y ...] of a polyline through points with
    natural-number coordinates, the format of the paths in
    CylinderPreview.tsx. *)
Definition pairText (p : nat * nat) : list ascii :=
  Text.decimal (fst p) ++ ","%char :: Text.decimal (snd p).

Fixpoint lineTo (pts : list (nat * nat)) : list ascii :=
  match pts with
  | [] => []
  | p :: rest => " "%char :: "L"%char :: " "%char :: pairText p ++ lineTo rest
  end.

Definition pathText (pts : list (nat * nat)) : string :=
  match pts with
  | [] => EmptyString
  | p :: rest =>
      string_of_list_ascii ("M"%char :: " "%char :: pairText p ++ lineTo rest)
  end.

Section ArcLength.

Variable Math_sqrt : number -> number.

(** The length of the polyline through [pts] from its first point to its
    [i]-th point (counted from 0). *)
Fixpoint lengthUpTo (pts : list (Q * Q)) (i : nat) : Q :=
  match i, pts with
  | S i', a :: rest =>
      match rest with
      | b :: _ => (Qdist Math_sqrt a b + lengthUpTo rest i')%Q
      | [] => 0%Q
      end
  | _, _ => 0%Q
  end.

(** [pt] is the point of the polyline at the distance [T] from its start,
    measured along the polyline: it is [a + k (b - a)] on the segment from
    the [i]-th point [a] to the next point [b], and the length up to [a]
    plus [k] times the length of the segment is [T]. *)
Definition atArcLength (pts : list (Q * Q)) (T : Q) (pt : Point) : Prop :=
  exists (i : nat) (a b : Q * Q) (k : Q),
    nth_error pts i = Some a /\ nth_error pts (S i) = Some b
    /\ (0 <= k)%Q /\ (k <= 1)%Q
    /\ samePoint pt (point (fst a + (fst b - fst a) * k,
                            snd a + (snd b - snd a) * k)%Q)
    /\ (lengthUpTo pts i + k * Qdist Math_sqrt a b == T)%Q.

End ArcLength.

(** Two dots with the same key and the same numbers. *)
Definition sameDot (a b : Dot) : Prop :=
  key a = key b /\ cx a =~ cx b /\ cy a =~ cy b /\ r a =~ r b.

(** Two results of [renderDots] that draw the same thing. *)
Definition sameDots (a b : completion (option (list Dot))) : Prop :=
  match a, b with
  | Normal (Some l), Normal (Some l') => Forall2 sameDot l l'
  | Normal None, Normal None => True
  | Throw_TypeError, Throw_TypeError => True
  | _, _ => False
  end.

End HydraulicLines.

(* ================================================================== *)
(** ** MouseCoordinateOverlay (components/MouseCoordinateOverlay.tsx) *)
(* ================================================================== *)

Module MouseCoordinateOverlay.

(** The [DOMRect] of the container. *)
Record Rect : Type := {
  left : number;
  top : number;
  width : number;
  height : number
}.

(** The component's state [mousePos], when it is not [null]. *)
Record MousePos : Type := { x : number; y : number }.

(** [handleMouseMove] (lines 45-63): the next value of the state [mousePos].
    [rect] is the bounding rectangle of [containerRef.current], [None] when
    the reference is not set and the handler returns at once; [clientX] and
    [clientY] are the coordinates of the event. *)
Definition handleMouseMove (sceneWidth sceneHeight : number)
    (rect : option Rect) (clientX clientY : number)
    (mousePos : option MousePos) : option MousePos :=
  match rect with
  | None => mousePos
  | Some rect =>
      let scaleX := sceneWidth / width rect in
      let scaleY := sceneHeight / height rect in
      let x := (clientX - left rect) * scaleX in
      let y := (clientY - top rect) * scaleY in
      let clampedX := Math_max (Fin 0) (Math_min x sceneWidth) in
      let clampedY := Math_max (Fin 0) (Math_min y sceneHeight) in
      Some {| x := clampedX; y := clampedY |}
  end.

(** "Calculate World Coords" (lines 82-126): the pair [(worldX, worldY)]. *)
Definition worldCoords (sceneWidth sceneHeight : number)
    (mousePos : option MousePos) (cameraState : option Camera.CameraState)
    : number * number :=
  match mousePos, cameraState with
  | Some mousePos, Some cameraState =>
      let scaleX := sceneWidth / Camera.width cameraState in
      let scaleY := sceneHeight / Camera.height cameraState in
      let scale := Math_min scaleX scaleY in
      let centeredX := x mousePos - sceneWidth / Fin 2 in
      let centeredY := y mousePos - sceneHeight / Fin 2 in
      let unscaledX := centeredX / scale in
      let unscaledY := centeredY / scale in
      (unscaledX + Camera.centerX cameraState,
       Camera.centerY cameraState - unscaledY)
  | _, _ => (Fin 0, Fin 0)
  end.

End MouseCoordinateOverlay.

(* ================================================================== *)
(** ** CylinderPreview (CylinderPreview.tsx) *)
(* ================================================================== *)

Module CylinderPreview.

Definition totalFrames : number := Fin 600.

(** [getPistonPos] (lines 17-20): the piston position handed to
    [HydraulicCylinder2D] at frame [f]. *)
Definition getPistonPos (f : number) : number :=
  let t := Math_min (Math_max f (Fin 0)) totalFrames / totalFrames in
  t * Fin 0.95.

End CylinderPreview.

(* ================================================================== *)
(** * Properties *)
(* ================================================================== *)

(** ** Arithmetic facts *)

Section NumberFacts.

Open Scope Q_scope.

Lemma Qlt_bool_iff (x y : Q) : Qlt_bool x y = true <-> x < y.
Proof.
  unfold Qlt_bool. rewrite negb_true_iff.
  split; intro H.
  - apply Qnot_le_lt. intro L. apply Qle_bool_iff in L. congruence.
  - destruct (Qle_bool y x) eqn:E; auto.
    apply Qle_bool_iff in E. exfalso. apply (Qlt_not_le _ _ H E).
Qed.

Lemma Qlt_bool_false_iff (x y : Q) : Qlt_bool x y = false <-> y <= x.
Proof.
  unfold Qlt_bool. rewrite negb_false_iff. apply Qle_bool_iff.
Qed.

Lemma Qeq_bool_false_iff (x y : Q) : Qeq_bool x y = false <-> ~ x == y.
Proof.
  split; intro H.
  - intro E. apply Qeq_bool_iff in E. congruence.
  - destruct (Qeq_bool x y) eqn:E; auto. apply Qeq_bool_iff in E. contradiction.
Qed.

#[global] Instance Qlt_bool_proper : Proper (Qeq ==> Qeq ==> eq) Qlt_bool.
Proof.
  intros a b Hab c d Hcd.
  destruct (Qlt_bool a c) eqn:E1, (Qlt_bool b d) eqn:E2; auto.
  - apply Qlt_bool_iff in E1. apply Qlt_bool_false_iff in E2.
    rewrite Hab, Hcd in E1. exfalso. apply (Qlt_not_le _ _ E1 E2).
  - apply Qlt_bool_iff in E2. apply Qlt_bool_false_iff in E1.
    rewrite <- Hab, <- Hcd in E2. exfalso. apply (Qlt_not_le _ _ E2 E1).
Qed.

#[global] Instance Qeq_bool_proper : Proper (Qeq ==> Qeq ==> eq) Qeq_bool.
Proof.
  intros a b Hab c d Hcd.
  destruct (Qeq_bool a c) eqn:E1, (Qeq_bool b d) eqn:E2; auto.
  - apply Qeq_bool_iff in E1. apply Qeq_bool_false_iff in E2.
    exfalso. apply E2. rewrite <- Hab, <- Hcd. exact E1.
  - apply Qeq_bool_iff in E2. apply Qeq_bool_false_iff in E1.
    exfalso. apply E1. rewrite Hab, Hcd. exact E2.
Qed.

#[global] Instance same_equiv : Equivalence same.
Proof.
  split.
  - intros [| |]; simpl; auto. reflexivity.
  - intros [| |] [| |]; simpl; auto. intros; symmetry; auto.
  - intros [| |] [| |] [| |]; simpl; try tauto; try congruence.
    intros; etransitivity; eauto.
Qed.

#[global] Instance Fin_proper : Proper (Qeq ==> same) Fin.
Proof. intros a b H. exact H. Qed.

#[global] Instance neg_proper : Proper (same ==> same) neg.
Proof.
  intros [| |] [| |]; simpl; try tauto; try congruence.
  intros H. rewrite H. reflexivity.
Qed.

#[global] Instance add_proper : Proper (same ==> same ==> same) add.
Proof.
  intros [|a|p] [|b|q] H1 [|c|r] [|d|s] H2; simpl in *; try tauto; subst;
    try solve [destruct (Bool.eqb _ _); simpl; auto].
  rewrite H1, H2. reflexivity.
Qed.

#[global] Instance sub_proper : Proper (same ==> same ==> same) sub.
Proof. intros a b H1 c d H2. unfold sub. rewrite H1, H2. reflexivity. Qed.

Lemma Qsign_tests_compat (r s : Q) :
  r == s -> Qeq_bool r 0 = Qeq_bool s 0 /\ Qlt_bool r 0 = Qlt_bool s 0.
Proof. intros H. split; rewrite H; reflexivity. Qed.

#[global] Instance mul_proper : Proper (same ==> same ==> same) mul.
Proof.
  intros [|a|p] [|b|q] H1 [|c|r] [|d|s] H2; simpl in *; try tauto; subst;
    auto.
  - destruct (Qsign_tests_compat H2) as [-> ->].
    destruct (Qeq_bool s 0); simpl; auto.
  - destruct (Qsign_tests_compat H1) as [-> ->].
    destruct (Qeq_bool q 0); simpl; auto.
  - rewrite H1, H2. reflexivity.
Qed.

#[global] Instance div_proper : Proper (same ==> same ==> same) div.
Proof.
  intros [|a|p] [|b|q] H1 [|c|r] [|d|s] H2; simpl in *; try tauto; subst;
    auto.
  - destruct (Qsign_tests_compat H2) as [_ ->]. reflexivity.
  - reflexivity.
  - destruct (Qsign_tests_compat H2) as [-> _].
    destruct (Qsign_tests_compat H1) as [-> ->].
    destruct (Qeq_bool s 0); [destruct (Qeq_bool q 0); simpl; auto|].
    simpl. rewrite H1, H2. reflexivity.
Qed.

#[global] Instance ltb_proper : Proper (same ==> same ==> eq) ltb.
Proof.
  intros [|a|p] [|b|q] H1 [|c|r] [|d|s] H2; simpl in *; try tauto; subst;
    auto.
  rewrite H1, H2. reflexivity.
Qed.

#[global] Instance eqb_proper : Proper (same ==> same ==> eq) eqb.
Proof.
  intros [|a|p] [|b|q] H1 [|c|r] [|d|s] H2; simpl in *; try tauto; subst;
    auto.
  rewrite H1, H2. reflexivity.
Qed.

#[global] Instance Math_max_proper : Proper (same ==> same ==> same) Math_max.
Proof.
  intros [|a|p] [|b|q] H1 [|c|r] [|d|s] H2; simpl in *; try tauto; subst;
    try solve [match goal with |- context [if ?c then _ else _] =>
                 destruct c; simpl; auto end].
  rewrite H1, H2. destruct (Qlt_bool q s); simpl; auto.
Qed.

#[global] Instance Math_min_proper : Proper (same ==> same ==> same) Math_min.
Proof.
  intros [|a|p] [|b|q] H1 [|c|r] [|d|s] H2; simpl in *; try tauto; subst;
    try solve [match goal with |- context [if ?c then _ else _] =>
                 destruct c; simpl; auto end].
  rewrite H1, H2. destruct (Qlt_bool s q); simpl; auto.
Qed.

Lemma div_one (x : number) : (x / Fin 1)%js =~ x.
Proof.
  destruct x as [| a | q]; simpl; auto.
  - destruct a; reflexivity.
  - field.
Qed.

Lemma same_refl_eq (x y : number) : x = y -> x =~ y.
Proof. intros ->. reflexivity. Qed.

Lemma same_within (tol : Q) (x : number) (b : Q) :
  0 <= tol -> x =~ Fin b -> within tol x (Fin b).
Proof.
  destruct x as [| |a]; cbn [within same]; try tauto.
  intros Htol Hab. apply Qabs_case; intros; lra.
Qed.

End NumberFacts.

(* ================================================================== *)
(** ** Camera2D *)
(* ================================================================== *)

Section CameraFacts.

Import Camera.
Open Scope Q_scope.

Variable R : RemotionAPI.

(** The state of a frame is the interpolated centre with the adjusted size. *)
Lemma Camera2D_state (p : Camera2DProps) (frame : number) :
  let i := interpolated R p frame in
  let wh := aspectCorrection p (applyZoom p (applyConstraints p (width i, height i))) in
  state (Camera2D R p frame)
  = {| centerX := centerX i; centerY := centerY i;
       width := fst wh; height := snd wh |}.
Proof.
  cbv zeta. unfold Camera2D.
  destruct (aspectCorrection _ _) as [w h]. reflexivity.
Qed.

(** The transform is derived from the final state by the three formulas of
    lines 159-170, whatever the numbers are. *)
Lemma Camera2D_transform (p : Camera2DProps) (frame : number) :
  let f := Camera2D R p frame in
  scale f = (sceneWidth p / width (state f))%js /\
  translateX f = (sceneWidth p / Fin 2 - centerX (state f) * scale f)%js /\
  translateY f = (sceneHeight p / Fin 2 - centerY (state f) * scale f)%js.
Proof.
  cbv zeta. unfold Camera2D.
  destruct (aspectCorrection _ _) as [w h]. simpl. auto.
Qed.

Lemma Fin_div (a b : Q) : ~ b == 0 -> (Fin a / Fin b)%js = Fin (a / b).
Proof.
  intros H. simpl. apply Qeq_bool_false_iff in H. rewrite H. reflexivity.
Qed.



(** *** The adjustment steps *)

Lemma applyConstraints_spec (p : Camera2DProps) (wh : number * number) :
  applyConstraints p wh = spec_step1 p wh.
Proof.
  destruct wh as [w h]. unfold applyConstraints, spec_step1, spec_clamp, given.
  simpl fst; simpl snd.
  destruct (truthy_opt (minWidth p)), (truthy_opt (maxWidth p)),
    (truthy_opt (minHeight p)), (truthy_opt (maxHeight p)); reflexivity.
Qed.

Lemma applyZoom_spec (p : Camera2DProps) (wh : number * number) :
  fst (applyZoom p wh) =~ fst (spec_step2 p wh) /\
  snd (applyZoom p wh) =~ snd (spec_step2 p wh).
Proof.
  destruct wh as [w h]. unfold applyZoom, spec_step2. simpl fst; simpl snd.
  set (z := default (Fin 1) (zoomMultiplier p)).
  destruct (z !== Fin 1)%js eqn:E; simpl; [split; reflexivity|].
  assert (Hz : z =~ Fin 1).
  { unfold neb in E. apply negb_false_iff in E.
    destruct z as [| |q]; simpl in E; try discriminate.
    apply Qeq_bool_iff in E. exact E. }
  rewrite Hz. split; symmetry; apply div_one.
Qed.

Lemma aspectCorrection_spec (p : Camera2DProps) (wh : number * number) :
  aspectCorrection p wh = spec_step3 p wh.
Proof.
  destruct wh as [w h]. unfold aspectCorrection, spec_step3.
  destruct (default true (maintainAspectRatio p)); reflexivity.
Qed.

Lemma spec_step3_proper (p : Camera2DProps) (a b : number * number) :
  fst a =~ fst b -> snd a =~ snd b ->
  fst (spec_step3 p a) =~ fst (spec_step3 p b) /\
  snd (spec_step3 p a) =~ snd (spec_step3 p b).
Proof.
  intros H1 H2. unfold spec_step3.
  destruct (default true (maintainAspectRatio p)); simpl; auto.
  split; auto. rewrite H1. reflexivity.
Qed.

(** With the aspect lock on, the final height is the final width divided by
    the scene's aspect ratio. *)
Lemma locked_height (p : Camera2DProps) (frame : number) :
  default true (maintainAspectRatio p) = true ->
  height (state (Camera2D R p frame))
  = (width (state (Camera2D R p frame)) / (sceneWidth p / sceneHeight p))%js.
Proof.
  intros H. rewrite Camera2D_state. cbv zeta. cbn [width height].
  generalize (applyZoom p (applyConstraints p
    (width (interpolated R p frame), height (interpolated R p frame)))).
  intros [w h]. unfold aspectCorrection. rewrite H. reflexivity.
Qed.

(** C3.  In every frame the adjustments after interpolation are, in this
    order, (1) the clamp of width and height to the given bounds, (2) the
    division of both by [zoomMultiplier], (3) with the aspect lock on, the
    recomputation [height = width / (sceneWidth/sceneHeight)], which replaces
    the interpolated height; with the lock on in a 1920 x 1080 scene a final
    width of 600 gives height 337.5.  A bound counts as given when it passes
    the component's test [if (bound)]. *)
Theorem adjustments_applied_in_order (p : Camera2DProps) (frame : number) :
  let i := interpolated R p frame in
  let f := Camera2D R p frame in
  let s := spec_step3 p (spec_step2 p (spec_step1 p (width i, height i))) in
  width (state f) =~ fst s /\
  height (state f) =~ snd s /\
  (default true (maintainAspectRatio p) = true ->
   sceneWidth p =~ Fin 1920 -> sceneHeight p =~ Fin 1080 ->
   width (state f) =~ Fin 600 ->
   height (state f) =~ Fin 337.5).
Proof.
  intros i f s.
  assert (Hst := Camera2D_state p frame). cbv zeta in Hst. fold f i in Hst.
  rewrite Hst. cbn [width height].
  rewrite aspectCorrection_spec, applyConstraints_spec.
  destruct (applyZoom_spec p (spec_step1 p (width i, height i))) as [Z1 Z2].
  destruct (spec_step3_proper p _ _ Z1 Z2) as [S1 S2].
  split; [exact S1|]. split; [exact S2|].
  intros Hlock Hsw Hsh Hw.
  assert (Hh := locked_height p frame Hlock). fold f in Hh.
  rewrite Hst in Hh. cbn [width height] in Hh.
  rewrite aspectCorrection_spec, applyConstraints_spec in Hh.
  rewrite Hh, Hw, Hsw, Hsh. vm_compute. reflexivity.
Qed.


(** C10.  In the size-constraint step a bound equal to 0 is treated as absent:
    replacing each zero bound by a missing one changes nothing in the frame
    (so [maxWidth = 0] leaves the width alone), while every strictly positive
    bound is enforced, a minimum with [Math.max] and a maximum with
    [Math.min]. *)
Theorem zero_bound_is_absent
    (p : Camera2DProps) (minW maxW minH maxH : option number) (frame : number) :
  Camera2D R (withBounds p minW maxW minH maxH) frame
  = Camera2D R (withBounds p (dropZero minW) (dropZero maxW)
                             (dropZero minH) (dropZero maxH)) frame
  /\ (forall w h : number,
        fst (applyConstraints (withBounds p None (Some (Fin 0)) minH maxH) (w, h))
        = w)
  /\ (forall (m : Q) (w h : number), 0 < m ->
        fst (applyConstraints (withBounds p (Some (Fin m)) maxW minH maxH) (w, h))
        = fst (applyConstraints (withBounds p None maxW minH maxH)
                 (Math_max w (Fin m), h)))
  /\ (forall (m : Q) (w h : number), 0 < m ->
        fst (applyConstraints (withBounds p minW (Some (Fin m)) minH maxH) (w, h))
        = Math_min
            (fst (applyConstraints (withBounds p minW None minH maxH) (w, h)))
            (Fin m))
  /\ (forall (m : Q) (w h : number), 0 < m ->
        snd (applyConstraints (withBounds p minW maxW (Some (Fin m)) maxH) (w, h))
        = snd (applyConstraints (withBounds p minW maxW None maxH)
                 (w, Math_max h (Fin m))))
  /\ (forall (m : Q) (w h : number), 0 < m ->
        snd (applyConstraints (withBounds p minW maxW minH (Some (Fin m))) (w, h))
        = Math_min
            (snd (applyConstraints (withBounds p minW maxW minH None) (w, h)))
            (Fin m)).
Proof.
  assert (T : forall m : Q, 0 < m -> truthy_opt (Some (Fin m)) = true).
  { intros m Hm. simpl. apply negb_true_iff, Qeq_bool_false_iff. lra. }
  assert (D : forall b, truthy_opt (dropZero b) = truthy_opt b
                        /\ (truthy_opt b = true -> dropZero b = b)).
  { intros [[| |q]|]; simpl; auto.
    destruct (Qeq_bool q 0) eqn:E; simpl; rewrite ?E; auto.
    split; auto. discriminate. }
  split; [|split; [|split; [|split; [|split]]]].
  - assert (E : forall wh,
      applyConstraints (withBounds p minW maxW minH maxH) wh
      = applyConstraints (withBounds p (dropZero minW) (dropZero maxW)
                             (dropZero minH) (dropZero maxH)) wh).
    { intros [w h]. unfold applyConstraints, withBounds; simpl.
      destruct (D minW) as [-> A1], (D maxW) as [-> A2],
        (D minH) as [-> A3], (D maxH) as [-> A4].
      destruct (truthy_opt minW); [rewrite A1 by reflexivity|];
      destruct (truthy_opt maxW); [rewrite A2 by reflexivity| |
                                   rewrite A2 by reflexivity|];
      destruct (truthy_opt minH); try rewrite A3 by reflexivity;
      destruct (truthy_opt maxH); try rewrite A4 by reflexivity;
      reflexivity. }
    unfold Camera2D. cbv zeta. rewrite E. reflexivity.
  - intros w h. reflexivity.
  - intros m w h Hm. unfold applyConstraints, withBounds; simpl minWidth.
    rewrite (T m Hm). reflexivity.
  - intros m w h Hm. unfold applyConstraints, withBounds; simpl maxWidth.
    rewrite (T m Hm). reflexivity.
  - intros m w h Hm. unfold applyConstraints, withBounds; simpl minHeight.
    rewrite (T m Hm). reflexivity.
  - intros m w h Hm. unfold applyConstraints, withBounds; simpl maxHeight.
    rewrite (T m Hm). reflexivity.
Qed.

End CameraFacts.

Section CameraInstances.

Import Camera.
Open Scope Q_scope.


Lemma adjustments_applied_in_order_witness :
  let f := Camera2D Remotion.api CameraDemo_props (Fin 120) in
  default true (maintainAspectRatio CameraDemo_props) = true /\
  sceneWidth CameraDemo_props =~ Fin 1920 /\
  sceneHeight CameraDemo_props =~ Fin 1080 /\
  width (state f) =~ Fin 600 /\
  height (state f) =~ Fin 337.5.
Proof.
  intros f.
  assert (H1 : default true (maintainAspectRatio CameraDemo_props) = true)
    by reflexivity.
  assert (H2 : sceneWidth CameraDemo_props =~ Fin 1920)
    by (vm_compute; reflexivity).
  assert (H3 : sceneHeight CameraDemo_props =~ Fin 1080)
    by (vm_compute; reflexivity).
  assert (H4 : width (state f) =~ Fin 600) by (vm_compute; reflexivity).
  do 4 (split; [assumption|]).
  destruct (@adjustments_applied_in_order Remotion.api CameraDemo_props (Fin 120))
    as (_ & _ & H).
  exact (H H1 H2 H3 H4).
Defined.

Lemma zero_bound_is_absent_witness :
  (0 < 100) /\
  fst (applyConstraints
         (withBounds CameraDemo_props (Some (Fin 100)) None None None)
         (Fin 50, Fin 50))
  = fst (applyConstraints (withBounds CameraDemo_props None None None None)
           (Math_max (Fin 50) (Fin 100), Fin 50)).
Proof.
  assert (H : 0 < 100) by reflexivity.
  split; [exact H|].
  destruct (@zero_bound_is_absent Remotion.api CameraDemo_props
              None None None None (Fin 0)) as (_ & _ & P & _).
  exact (P 100 (Fin 50) (Fin 50) H).
Defined.

End CameraInstances.

(* ================================================================== *)
(** ** NumberPlane2D: the coordinate mapper *)
(* ================================================================== *)

Section MapperFacts.

Import NumberPlane.
Open Scope Q_scope.

Variables (w h x0 x1 y0 y1 : Q) (pad : option Q).

Let p := plane w h x0 x1 y0 y1 pad.
Let padQ : Q := match pad with Some q => q | None => 20 end.

Lemma mapX_finite (v : Q) :
  x0 < x1 ->
  mapX p (Fin v) = Fin (padQ + (v - x0) / (x1 - x0) * (w - 2 * padQ)).
Proof.
  intros Hx. unfold mapX, plotX, plotW, xSpan, xMin, xMax, p, plane, padQ.
  cbn [xRange padding width fst snd option_map default].
  destruct pad as [q|]; cbn [option_map default sub add neg mul];
    (rewrite Fin_div by (cbn; lra)); reflexivity.
Qed.

Lemma mapY_finite (v : Q) :
  y0 < y1 ->
  mapY p (Fin v)
  = Fin (padQ + (h - 2 * padQ) - (v - y0) / (y1 - y0) * (h - 2 * padQ)).
Proof.
  intros Hy. unfold mapY, plotY, plotH, ySpan, yMin, yMax, p, plane, padQ.
  cbn [yRange padding height fst snd option_map default].
  destruct pad as [q|]; cbn [option_map default sub add neg mul];
    (rewrite Fin_div by (cbn; lra)); reflexivity.
Qed.

Lemma scaled_lt (a b lo span size : Q) :
  0 < span -> 0 < size -> a < b ->
  (a - lo) / span * size < (b - lo) / span * size.
Proof.
  intros Hspan Hsize Hab. unfold Qdiv.
  assert (Hi : 0 < / span) by (apply Qinv_lt_0_compat; exact Hspan).
  set (k := / span) in *.
  assert (Hk : 0 < k * size) by (apply Qmult_lt_0_compat; assumption).
  setoid_replace ((a - lo) * k * size) with ((a - lo) * (k * size)) by ring.
  setoid_replace ((b - lo) * k * size) with ((b - lo) * (k * size)) by ring.
  apply Qmult_lt_compat_r; [exact Hk | lra].
Qed.


End MapperFacts.

(** The plane of the end-to-end scenario: ranges [0,10] x [0,1] on an
    800 x 500 rectangle with padding 40.  The corners of the data range go to
    the bottom-left and the top-right corner of the plot area. *)
Example scenario_points :
  let p := NumberPlane.plane 800 500 0 10 0 1 (Some 40) in
  Forall2 same
    (map (NumberPlane.mapX p) [Fin 0; Fin 5; Fin 10]) [Fin 40; Fin 400; Fin 760]
  /\ Forall2 same
    (map (NumberPlane.mapY p) [Fin 0; Fin 0.5; Fin 1]) [Fin 460; Fin 250; Fin 40].
Proof. split; repeat constructor. Qed.


(* ================================================================== *)
(** ** NumberPlane2D: tick generation *)
(* ================================================================== *)

Section TickFacts.

Import NumberPlane.
Open Scope Q_scope.

Variables (max step : Q).
Hypothesis step_pos : 0 < step.

Let bound : Q := max + 0.000000001.

Lemma getTicks_loop_S (n : nat) (v : number) :
  getTicks_loop (S n) v (Fin max) (Fin step)
  = if (v <=? Fin bound)%js
    then option_map (cons v) (getTicks_loop n (v + Fin step)%js (Fin max) (Fin step))
    else Some [].
Proof. reflexivity. Qed.

(** More fuel never changes a result. *)
Lemma getTicks_loop_mono (n : nat) :
  forall (v : number) (l : list number),
    getTicks_loop n v (Fin max) (Fin step) = Some l ->
    getTicks_loop (S n) v (Fin max) (Fin step) = Some l.
Proof.
  induction n as [|n IH]; intros v l H; [discriminate|].
  cbn [getTicks_loop] in H |- *.
  destruct (v <=? Fin max + Fin 0.000000001)%js; [|exact H].
  destruct (getTicks_loop n (v + Fin step)%js (Fin max) (Fin step)) as [l'|] eqn:E;
    [|discriminate].
  apply IH in E. cbn [getTicks_loop] in E. rewrite E. exact H.
Qed.

Lemma getTicks_loop_mono_le (n m : nat) (v : number) (l : list number) :
  (n <= m)%nat ->
  getTicks_loop n v (Fin max) (Fin step) = Some l ->
  getTicks_loop m v (Fin max) (Fin step) = Some l.
Proof.
  intros Hle. induction Hle as [|m Hle IH]; intros Hrun; auto.
  apply getTicks_loop_mono. auto.
Qed.

Lemma leb_Fin (a b : Q) : (Fin a <=? Fin b)%js = true <-> a <= b.
Proof.
  unfold leb. cbn [ltb eqb]. rewrite orb_true_iff, Qlt_bool_iff, Qeq_bool_iff.
  split; [intros [H|H]; lra|].
  intros H. destruct (Qlt_le_dec a b); [left; auto|right; lra].
Qed.

Lemma leb_Fin_false (a b : Q) : (Fin a <=? Fin b)%js = false <-> b < a.
Proof.
  split; intros H.
  - destruct (Qlt_le_dec b a) as [L|L]; auto.
    apply leb_Fin in L. congruence.
  - destruct (Fin a <=? Fin b)%js eqn:E; auto.
    apply leb_Fin in E. lra.
Qed.

(** The loop started at [v] with [n] iterations to spare: it returns the
    values [v, v + step, ...] that do not exceed the bound. *)
Lemma getTicks_loop_spec (n : nat) :
  forall v : Q,
    bound < v + inject_Z (Z.of_nat n) * step ->
    exists qs : list Q,
      getTicks_loop (S n) (Fin v) (Fin max) (Fin step) = Some (map Fin qs)
      /\ StronglySorted Qlt qs
      /\ Forall (fun q => v <= q) qs
      /\ (forall x, (exists q, In q qs /\ q == x)
                    <-> (exists j : nat,
                           x == v + inject_Z (Z.of_nat j) * step /\ x <= bound)).
Proof.
  induction n as [|n IH]; intros v Hn.
  - exists []. rewrite getTicks_loop_S.
    assert (Hv : bound < v).
    { change (inject_Z (Z.of_nat 0)) with 0 in Hn. lra. }
    assert (E : (Fin v <=? Fin bound)%js = false)
      by (apply leb_Fin_false; exact Hv).
    rewrite E. repeat split; try constructor.
    + intros (q & [] & _).
    + intros (j & Hx & Hb). exfalso.
      assert (0 <= inject_Z (Z.of_nat j) * step).
      { apply Qmult_le_0_compat; [|lra].
        change 0 with (inject_Z 0). rewrite <- Zle_Qle. lia. }
      lra.
  - rewrite getTicks_loop_S. change (Fin v + Fin step)%js with (Fin (v + step)).
    destruct (Fin v <=? Fin bound)%js eqn:E.
    + apply leb_Fin in E.
      assert (Hn' : bound < (v + step) + inject_Z (Z.of_nat n) * step).
      { rewrite Nat2Z.inj_succ, <- Z.add_1_r, inject_Z_plus in Hn.
        change (inject_Z 1) with 1 in Hn. lra. }
      destruct (IH (v + step) Hn') as (qs & Hrun & Hsort & Hlow & Hmem).
      exists (v :: qs). rewrite Hrun. cbn [option_map map].
      split; [reflexivity|]. split; [|split].
      * constructor; auto.
        eapply Forall_impl; [|exact Hlow]. cbn. intros; lra.
      * constructor; [lra|].
        eapply Forall_impl; [|exact Hlow]. cbn. intros; lra.
      * intros x. split.
        -- intros (q & [<-|Hin] & Hq).
           ++ exists 0%nat. change (inject_Z (Z.of_nat 0)) with 0.
              split; lra.
           ++ destruct (proj1 (Hmem x) (ex_intro _ q (conj Hin Hq)))
                as (j & Hx & Hb).
              exists (S j). split; auto.
              rewrite Nat2Z.inj_succ, <- Z.add_1_r, inject_Z_plus.
              change (inject_Z 1) with 1. lra.
        -- intros ([|j] & Hx & Hb).
           ++ exists v. split; [left; auto|].
              change (inject_Z (Z.of_nat 0)) with 0 in Hx. lra.
           ++ destruct (proj2 (Hmem x)) as (q & Hin & Hq).
              { exists j. split; auto.
                rewrite Nat2Z.inj_succ, <- Z.add_1_r, inject_Z_plus in Hx.
                change (inject_Z 1) with 1 in Hx. lra. }
              exists q. split; [right; auto|auto].
    + apply leb_Fin_false in E. exists []. repeat split; try constructor.
      * intros (q & [] & _).
      * intros (j & Hx & Hb). exfalso.
        assert (0 <= inject_Z (Z.of_nat j) * step).
        { apply Qmult_le_0_compat; [|lra].
          change 0 with (inject_Z 0). rewrite <- Zle_Qle. lia. }
        lra.
Qed.

(** Some number of steps takes any start beyond the bound. *)
Lemma steps_to_bound (v : Q) :
  exists n : nat, bound < v + inject_Z (Z.of_nat n) * step.
Proof.
  set (r := (bound - v) / step).
  exists (Z.to_nat (Qfloor r + 1)).
  assert (Hr : r < inject_Z (Qfloor r + 1)) by apply Qlt_floor.
  assert (Hle : (Qfloor r + 1 <= Z.of_nat (Z.to_nat (Qfloor r + 1)))%Z) by lia.
  rewrite Zle_Qle in Hle.
  assert (Hm : r * step < inject_Z (Z.of_nat (Z.to_nat (Qfloor r + 1))) * step).
  { apply Qmult_lt_compat_r; [exact step_pos | lra]. }
  assert (Er : r * step == bound - v).
  { unfold r. field. lra. }
  lra.
Qed.

End TickFacts.

Section TickTheorem.

Import NumberPlane.
Open Scope Q_scope.



(** Ticks every 2 units on [0, 10]: seven iterations suffice. *)
Example getTicks_0_10_2 :
  exists ticks : list number,
    getTicks 7 (Fin 0) (Fin 10) (Fin 2) = Some ticks
    /\ Forall2 same ticks (map Fin [0; 2; 4; 6; 8; 10]).
Proof.
  eexists. split; [vm_compute; reflexivity|].
  repeat constructor.
Qed.

(** With a step of 0 and a start below the bound the loop does not end: no
    amount of fuel is enough. *)
Lemma getTicks_loop_zero_step (fuel : nat) :
  forall v max : Q,
    v <= max + 0.000000001 ->
    getTicks_loop fuel (Fin v) (Fin max) (Fin 0) = None.
Proof.
  induction fuel as [|fuel IH]; intros v max Hv; [reflexivity|].
  cbn [getTicks_loop]. change (Fin max + Fin 0.000000001)%js
    with (Fin (max + 0.000000001)).
  assert (E : (Fin v <=? Fin (max + 0.000000001))%js = true)
    by (apply leb_Fin; exact Hv).
  rewrite E. change (Fin v + Fin 0)%js with (Fin (v + 0)).
  rewrite IH by lra. reflexivity.
Qed.

End TickTheorem.

(* ================================================================== *)
(** ** NumberPlane2D: nice steps *)
(* ================================================================== *)

Section Log10Facts.

Open Scope Z_scope.

Lemma log10_up_spec (fuel : nat) :
  forall n d k : Z,
    0 < d -> d <= n -> n < 2 ^ Z.of_nat fuel * d ->
    exists j : Z,
      0 <= j /\ log10_up fuel n d k = k + j
      /\ 10 ^ j * d <= n < 10 ^ (j + 1) * d.
Proof.
  induction fuel as [|f IH]; intros n d k Hd Hle Hlt.
  - change (2 ^ Z.of_nat 0) with 1 in Hlt. lia.
  - cbn [log10_up]. destruct (10 * d <=? n) eqn:E.
    + apply Z.leb_le in E.
      destruct (IH n (10 * d) (k + 1)) as (j & Hj & Hr & Hlo & Hhi);
        try lia.
      { rewrite Nat2Z.inj_succ, Z.pow_succ_r in Hlt by lia.
        assert (0 < 2 ^ Z.of_nat f) by (apply Z.pow_pos_nonneg; lia). nia. }
      exists (j + 1). rewrite Hr.
      rewrite !Z.pow_add_r by lia.
      rewrite Z.pow_add_r in Hhi by lia. change (10 ^ 1) with 10 in *.
      repeat split; lia.
    + apply Z.leb_gt in E. exists 0. change (10 ^ 0) with 1.
      change (10 ^ (0 + 1)) with 10. repeat split; lia.
Qed.

Lemma log10_down_spec (fuel : nat) :
  forall n d k : Z,
    0 < n -> n < d -> d <= 2 ^ Z.of_nat fuel * n ->
    exists j : Z,
      0 <= j /\ log10_down fuel n d k = k - j
      /\ 10 ^ j * n < d <= 10 ^ (j + 1) * n.
Proof.
  induction fuel as [|f IH]; intros n d k Hn Hlt Hle.
  - change (2 ^ Z.of_nat 0) with 1 in Hle. lia.
  - cbn [log10_down]. destruct (d <=? 10 * n) eqn:E.
    + apply Z.leb_le in E. exists 0. change (10 ^ 0) with 1.
      change (10 ^ (0 + 1)) with 10. repeat split; lia.
    + apply Z.leb_gt in E.
      destruct (IH (10 * n) d (k - 1)) as (j & Hj & Hr & Hlo & Hhi);
        try lia.
      { rewrite Nat2Z.inj_succ, Z.pow_succ_r in Hle by lia.
        assert (0 < 2 ^ Z.of_nat f) by (apply Z.pow_pos_nonneg; lia). nia. }
      exists (j + 1). rewrite Hr.
      rewrite !Z.pow_add_r by lia.
      rewrite Z.pow_add_r in Hhi by lia. change (10 ^ 1) with 10 in *.
      repeat split; lia.
Qed.

Open Scope Q_scope.

Lemma ten_pow_Q (j : Z) : (0 <= j)%Z -> inject_Z (10 ^ j) == 10 ^ j.
Proof. intros H. rewrite Zpower_Qpower by exact H. reflexivity. Qed.

Lemma ten_pow_pos (k : Z) : 0 < 10 ^ k.
Proof. apply Qpower_0_lt. reflexivity. Qed.

(** [floor_log10 q] is the decimal exponent of a positive [q]. *)
Lemma floor_log10_spec (q : Q) :
  0 < q ->
  10 ^ floor_log10 q <= q /\ q < 10 ^ (floor_log10 q + 1).
Proof.
  intros Hq. destruct q as [n d]. unfold floor_log10. cbn [Qnum Qden].
  assert (Hn : (0 < n)%Z).
  { unfold Qlt in Hq. cbn in Hq. lia. }
  assert (Hdq : 0 < inject_Z (Zpos d)).
  { change 0 with (inject_Z 0). rewrite <- Zlt_Qlt. lia. }
  rewrite (Qmake_Qdiv n d).
  destruct (Z.pos d <=? n)%Z eqn:E.
  - apply Z.leb_le in E.
    destruct (@log10_up_spec (S (Z.to_nat (Z.log2 n))) n (Zpos d) 0)
      as (j & Hj & -> & Hlo & Hhi); try lia.
    { rewrite Nat2Z.inj_succ, Z2Nat.id by apply Z.log2_nonneg.
      destruct (Z.log2_spec n Hn) as [_ H2]. nia. }
    rewrite Z.add_0_l. rewrite <- !ten_pow_Q by lia. split.
    + apply Qle_shift_div_l; auto.
      rewrite <- inject_Z_mult, <- Zle_Qle. exact Hlo.
    + apply Qlt_shift_div_r; auto.
      rewrite <- inject_Z_mult, <- Zlt_Qlt. exact Hhi.
  - apply Z.leb_gt in E.
    destruct (@log10_down_spec (S (Z.to_nat (Z.log2 (Zpos d)))) n (Zpos d) (-1))
      as (j & Hj & -> & Hlo & Hhi); try lia.
    { rewrite Nat2Z.inj_succ, Z2Nat.id by apply Z.log2_nonneg.
      destruct (Z.log2_spec (Zpos d) ltac:(lia)) as [_ H2]. nia. }
    replace (-1 - j)%Z with (- (j + 1))%Z by lia.
    replace (- (j + 1) + 1)%Z with (- j)%Z by lia.
    rewrite !Qpower_opp, <- !ten_pow_Q by lia.
    assert (P1 : 0 < inject_Z (10 ^ (j + 1))).
    { rewrite ten_pow_Q by lia. apply ten_pow_pos. }
    assert (P0 : 0 < inject_Z (10 ^ j)).
    { rewrite ten_pow_Q by lia. apply ten_pow_pos. }
    assert (Hhi' : inject_Z (Z.pos d) <= inject_Z n * inject_Z (10 ^ (j + 1))).
    { rewrite <- inject_Z_mult, <- Zle_Qle. lia. }
    assert (Hlo' : inject_Z n * inject_Z (10 ^ j) < inject_Z (Z.pos d)).
    { rewrite <- inject_Z_mult, <- Zlt_Qlt. lia. }
    split.
    + apply Qle_shift_div_l; auto.
      setoid_replace (/ inject_Z (10 ^ (j + 1)) * inject_Z (Z.pos d))
        with (inject_Z (Z.pos d) / inject_Z (10 ^ (j + 1))) by (field; lra).
      apply Qle_shift_div_r; auto.
    + apply Qlt_shift_div_r; auto.
      setoid_replace (/ inject_Z (10 ^ j) * inject_Z (Z.pos d))
        with (inject_Z (Z.pos d) / inject_Z (10 ^ j)) by (field; lra).
      apply Qlt_shift_div_l; auto.
Qed.

End Log10Facts.

Section NiceStepFacts.

Import NumberPlane.
Open Scope Q_scope.

Lemma Qfloor_inject_Z (z : Z) : Qfloor (inject_Z z) = z.
Proof. apply Qfloor_Z. Qed.

(** The magnitude is never negative: it is [NaN], [+Infinity] or a finite
    value that is zero or a power of ten. *)
Lemma magnitude_shape (x : number) :
  let mag := Math_pow10 (Math_floor_log10 x) in
  mag = NaN \/ mag = Inf false \/ exists q, mag = Fin q /\ 0 <= q.
Proof.
  destruct x as [|[|]|q]; cbn; auto.
  destruct (Qlt_bool q 0); cbn; auto.
  destruct (Qeq_bool q 0); cbn.
  - right; right. exists 0. split; [reflexivity|lra].
  - right; right. eexists. split; [reflexivity|].
    apply Qlt_le_weak, ten_pow_pos.
Qed.

Lemma scaled_magnitude_not_negative (c : Q) (mag : number) :
  0 < c ->
  mag = NaN \/ mag = Inf false \/ (exists q, mag = Fin q /\ 0 <= q) ->
  (Fin c * mag <? Fin 0)%js = false.
Proof.
  intros Hc [-> | [-> | (q & -> & Hq)]]; cbn [mul ltb].
  - reflexivity.
  - assert (E : Qeq_bool c 0 = false) by (apply Qeq_bool_false_iff; lra).
    rewrite E. cbn [ltb].
    assert (L : Qlt_bool c 0 = false) by (apply Qlt_bool_false_iff; lra).
    rewrite L. reflexivity.
  - apply Qlt_bool_false_iff. apply Qmult_le_0_compat; lra.
Qed.

Lemma getNiceStep_not_negative (range : number) (targetTicks : option number) :
  (getNiceStep range targetTicks <? Fin 0)%js = false.
Proof.
  unfold getNiceStep.
  set (rawStep := (range / default (Fin 5) targetTicks)%js).
  assert (M := magnitude_shape rawStep). cbv zeta in M.
  set (mag := Math_pow10 (Math_floor_log10 rawStep)) in *.
  destruct (_ <? Fin 1.5)%js; [|destruct (_ <? Fin 3.5)%js;
    [|destruct (_ <? Fin 7.5)%js]];
    apply scaled_magnitude_not_negative; auto; reflexivity.
Qed.

Variable targetTicks : option Q.
Let ticks : Q := match targetTicks with Some t => t | None => 5 end.

Lemma default_ticks :
  default (Fin 5) (option_map Fin targetTicks) = Fin ticks.
Proof. unfold ticks. destruct targetTicks; reflexivity. Qed.

Lemma getNiceStep_zero_range :
  ~ ticks == 0 ->
  getNiceStep (Fin 0) (option_map Fin targetTicks) =~ Fin 0.
Proof.
  intros Ht. unfold getNiceStep. rewrite default_ticks.
  rewrite Fin_div by exact Ht.
  assert (Z0 : 0 / ticks == 0) by (field; exact Ht).
  cbn [Math_floor_log10].
  assert (E1 : Qlt_bool (0 / ticks) 0 = false)
    by (apply Qlt_bool_false_iff; lra).
  assert (E2 : Qeq_bool (0 / ticks) 0 = true) by (apply Qeq_bool_iff; lra).
  rewrite E1, E2. cbn [Math_pow10 div]. rewrite E2.
  change (Qeq_bool 0 0) with true. cbn. reflexivity.
Qed.

Lemma getNiceStep_negative_range (range : Q) :
  range < 0 -> 0 < ticks ->
  getNiceStep (Fin range) (option_map Fin targetTicks) = NaN.
Proof.
  intros Hr Ht. unfold getNiceStep. rewrite default_ticks.
  rewrite Fin_div by lra.
  assert (N : range / ticks < 0).
  { apply Qlt_shift_div_r; lra. }
  cbn [Math_floor_log10].
  assert (E1 : Qlt_bool (range / ticks) 0 = true) by (apply Qlt_bool_iff; lra).
  rewrite E1. reflexivity.
Qed.

Lemma getNiceStep_positive_range (range : Q) :
  0 < range -> 0 < ticks ->
  exists s k : Z,
    In s [1; 2; 5; 10]%Z
    /\ getNiceStep (Fin range) (option_map Fin targetTicks)
       =~ Fin (inject_Z s * 10 ^ k)
    /\ 0 < inject_Z s * 10 ^ k.
Proof.
  intros Hr Ht. unfold getNiceStep. rewrite default_ticks.
  rewrite Fin_div by lra.
  set (raw := range / ticks).
  assert (P : 0 < raw) by (apply Qlt_shift_div_l; lra).
  cbn [Math_floor_log10].
  assert (E1 : Qlt_bool raw 0 = false) by (apply Qlt_bool_false_iff; lra).
  assert (E2 : Qeq_bool raw 0 = false) by (apply Qeq_bool_false_iff; lra).
  rewrite E1, E2. cbn [Math_pow10]. rewrite Qfloor_inject_Z.
  set (k := floor_log10 raw).
  assert (K := ten_pow_pos k).
  rewrite Fin_div by lra.
  assert (S : forall s : Z, (0 < s)%Z -> 0 < inject_Z s * 10 ^ k).
  { intros s Hs. apply Qmult_lt_0_compat; auto.
    change 0 with (inject_Z 0). rewrite <- Zlt_Qlt. exact Hs. }
  destruct (_ <? Fin 1.5)%js; [|destruct (_ <? Fin 3.5)%js;
    [|destruct (_ <? Fin 7.5)%js]].
  - exists 1%Z, k. split; [cbn; tauto|]. split; [reflexivity|]. apply S; lia.
  - exists 2%Z, k. split; [cbn; tauto|]. split; [reflexivity|]. apply S; lia.
  - exists 5%Z, k. split; [cbn; tauto|]. split; [reflexivity|]. apply S; lia.
  - exists 10%Z, k. split; [cbn; tauto|]. split; [reflexivity|]. apply S; lia.
Qed.

End NiceStepFacts.

Section NiceStepTheorem.

Import NumberPlane.
Open Scope Q_scope.




(** The x-axis step of the end-to-end scenario: a span of 10 with 8 ticks
    asked gives a step of 1. *)
Example getNiceStep_10_8 :
  (getNiceStep (Fin 10) (Some (Fin 8)) === Fin 1)%js = true.
Proof. vm_compute. reflexivity. Qed.

Example getNiceStep_1_default :
  (getNiceStep (Fin 1) None === Fin 0.2)%js = true.
Proof. vm_compute. reflexivity. Qed.

End NiceStepTheorem.

(* ================================================================== *)
(** ** Strings: the scan of the path text *)
(* ================================================================== *)

Section TextFacts.

Import Text.

Lemma span_rest_length (f : ascii -> bool) (s : list ascii) :
  (List.length (snd (span f s)) <= List.length s)%nat.
Proof.
  induction s as [|c s IH]; [cbn; lia|].
  cbn [span]. destruct (f c); [|cbn; lia].
  destruct (span f s) as [run rest]. cbn [snd List.length] in *. lia.
Qed.

Lemma span_run_shrinks (f : ascii -> bool) (s : list ascii) :
  fst (span f s) <> [] ->
  (List.length (snd (span f s)) < List.length s)%nat.
Proof.
  destruct s as [|c s]; [cbn; congruence|].
  cbn [span]. destruct (f c); [|cbn; congruence].
  assert (L := span_rest_length f s).
  destruct (span f s) as [run rest]. cbn [snd List.length] in *. lia.
Qed.

(** A match consumes at least one character. *)
Lemma matchHere_shrinks (s g1 g2 rest : list ascii) :
  matchHere s = Some (g1, g2, rest) ->
  (List.length rest < List.length s)%nat.
Proof.
  unfold matchHere.
  assert (L1 := span_run_shrinks isNumChar s).
  destruct (span isNumChar s) as [[|c1 run1] r1]; [discriminate|].
  assert (L2 := span_rest_length isSeparator r1).
  destruct (span isSeparator r1) as [[|c2 run2] r2]; [discriminate|].
  assert (L3 := span_rest_length isNumChar r2).
  destruct (span isNumChar r2) as [[|c3 run3] r3]; [discriminate|].
  intros E. injection E as _ _ <-. cbn [fst snd] in *.
  assert ((List.length r1 < List.length s)%nat) by (apply L1; discriminate).
  lia.
Qed.

(** The scan does not depend on its fuel once there is more of it than
    characters, so [matchAll] is the complete list of matches. *)
Lemma matchAll_from_enough (n : nat) :
  forall (m : nat) (s : list ascii),
    (List.length s < n)%nat -> (List.length s < m)%nat ->
    matchAll_from n s = matchAll_from m s.
Proof.
  induction n as [|n IH]; intros m s Hn Hm; [lia|].
  destruct m as [|m]; [lia|].
  cbn [matchAll_from].
  destruct (matchHere s) as [[[g1 g2] rest]|] eqn:E.
  - apply matchHere_shrinks in E. f_equal. apply IH; lia.
  - destruct s as [|c s]; [reflexivity|].
    cbn [List.length] in *. apply IH; lia.
Qed.

Example matchAll_pathA :
  map (fun m => (string_of_list_ascii (fst m), string_of_list_ascii (snd m)))
      (matchAll "M 520,905 L 520,774 L 320,774")
  = [("520", "905"); ("520", "774"); ("320", "774")]%string.
Proof. reflexivity. Qed.

Example parseFloat_forms :
  map (fun s => parseFloat (list_ascii_of_string s))
      ["-5.25"; ".5"; "8."; "-"; "."; "1.2.3"; "7-2"]%string
  = [Fin (-5.25); Fin 0.5; Fin 8; NaN; NaN; Fin 1.2; Fin 7].
Proof. vm_compute. reflexivity. Qed.

End TextFacts.

(* ================================================================== *)
(** ** HydraulicLines: the path sampler *)
(* ================================================================== *)

Section SamplerFacts.

Import HydraulicLines.
Open Scope Q_scope.

Variable sqrt : number -> number.

(** *** Facts that hold for any square root *)

Lemma segmentsFrom_cons (a b : Point) (rest : list Point) (c : number) :
  segmentsFrom sqrt a (b :: rest) c
  = ({| p1 := a; p2 := b; length := dist sqrt a b; cumulative := c |}
       :: fst (segmentsFrom sqrt b rest (c + dist sqrt a b)%js),
     snd (segmentsFrom sqrt b rest (c + dist sqrt a b)%js)).
Proof.
  cbn [segmentsFrom]. unfold dist.
  destruct (segmentsFrom sqrt b rest _) as [segs total]. reflexivity.
Qed.

Lemma chain_cons (a b : Q * Q) (rest : list (Q * Q)) (c : Q) :
  chain sqrt a (b :: rest) c
  = ({| q1 := a; q2 := b; qlength := Qdist sqrt a b; qcumulative := c |}
       :: fst (chain sqrt b rest (c + Qdist sqrt a b)),
     snd (chain sqrt b rest (c + Qdist sqrt a b))).
Proof.
  cbn [chain].
  destruct (chain sqrt b rest _) as [segs total]. reflexivity.
Qed.

Lemma nth_error_last_some {A : Type} (l : list A) :
  l <> [] -> exists a, nth_error l (List.length l - 1) = Some a.
Proof.
  intros Hl.
  destruct (nth_error l (List.length l - 1)) as [a|] eqn:E; [eauto|].
  apply nth_error_None in E. destruct l; [congruence|]. cbn in E. lia.
Qed.

(** The sampler returns a point whatever the text and the parameter. *)
Lemma getPointOnPolyline_returns (d : string) (t : number) :
  exists pt : Point, getPointOnPolyline sqrt d t = Normal pt.
Proof.
  unfold getPointOnPolyline.
  destruct (List.length (parseCoords d) <? 2)%nat eqn:E; [eauto|].
  apply Nat.ltb_ge in E.
  destruct (parseCoords d) as [|a [|b rest]]; cbn in E; try lia.
  unfold buildSegments. rewrite segmentsFrom_cons.
  set (segs := _ :: _).
  assert (N : segs <> []) by discriminate.
  destruct (find _ segs) as [s|]; [eauto|].
  destruct (nth_error_last_some N) as [s ->]. eauto.
Qed.

Lemma getPointOnPolyline_short (d : string) (t : number) :
  (List.length (parseCoords d) < 2)%nat ->
  getPointOnPolyline sqrt d t = Normal {| x := Fin 0; y := Fin 0 |}.
Proof.
  intros H. unfold getPointOnPolyline.
  apply Nat.ltb_lt in H. rewrite H. reflexivity.
Qed.

(** *** Facts that need the square root to be one *)

Hypothesis sqrt_ok : sqrt_spec sqrt.

Lemma square_nonneg (u : Q) : 0 <= u * u.
Proof. nra. Qed.

Lemma sum_squares_zero (u v : Q) : u * u + v * v == 0 -> u == 0 /\ v == 0.
Proof.
  intros H.
  assert (Hu := square_nonneg u). assert (Hv := square_nonneg v).
  split; nra.
Qed.

Lemma dist_finite (a b : Q * Q) :
  dist sqrt (point a) (point b) = Fin (Qdist sqrt a b)
  /\ 0 <= Qdist sqrt a b
  /\ (Qdist sqrt a b == 0 <-> fst a == fst b /\ snd a == snd b).
Proof.
  unfold Qdist, dist, point, Math_pow2. cbn [x y sub add neg mul].
  set (s := (fst b + - fst a) * (fst b + - fst a)
            + (snd b + - snd a) * (snd b + - snd a)).
  assert (Hs : 0 <= s).
  { unfold s.
    assert (H1 := square_nonneg (fst b + - fst a)).
    assert (H2 := square_nonneg (snd b + - snd a)). lra. }
  destruct (sqrt_ok Hs) as (r & -> & Hr & Hz).
  split; [reflexivity|]. split; [exact Hr|].
  rewrite Hz. unfold s. split.
  - intros H. apply sum_squares_zero in H. split; lra.
  - intros [H1 H2]. rewrite H1, H2. ring.
Qed.

Lemma segmentsFrom_chain (rest : list (Q * Q)) :
  forall (a : Q * Q) (c : Q),
    segmentsFrom sqrt (point a) (map point rest) (Fin c)
    = (map segmentOf (fst (chain sqrt a rest c)),
       Fin (snd (chain sqrt a rest c))).
Proof.
  induction rest as [|b rest IH]; intros a c; [reflexivity|].
  cbn [map]. rewrite segmentsFrom_cons, chain_cons.
  destruct (dist_finite a b) as (-> & _ & _).
  change (Fin c + Fin (Qdist sqrt a b))%js with (Fin (c + Qdist sqrt a b)).
  rewrite IH. reflexivity.
Qed.

(** The running sum never decreases. *)
Lemma chain_total_ge (rest : list (Q * Q)) :
  forall (a : Q * Q) (c : Q), c <= snd (chain sqrt a rest c).
Proof.
  induction rest as [|b rest IH]; intros a c; [cbn; lra|].
  rewrite chain_cons. cbn [snd].
  specialize (IH b (c + Qdist sqrt a b)).
  destruct (dist_finite a b) as (_ & H & _). lra.
Qed.

(** All points coincide with the first when the running sum does not grow. *)
Lemma chain_flat (rest : list (Q * Q)) :
  forall (a : Q * Q) (c : Q),
    snd (chain sqrt a rest c) <= c ->
    Forall (fun b => fst b == fst a /\ snd b == snd a) rest.
Proof.
  induction rest as [|b rest IH]; intros a c H; [constructor|].
  rewrite chain_cons in H. cbn [snd] in H.
  assert (G := chain_total_ge rest b (c + Qdist sqrt a b)).
  destruct (dist_finite a b) as (_ & Hn & Hz).
  assert (Z : Qdist sqrt a b == 0) by lra.
  apply Hz in Z. destruct Z as [Z1 Z2].
  constructor; [split; symmetry; assumption|].
  assert (F : Forall (fun b0 => fst b0 == fst b /\ snd b0 == snd b) rest).
  { apply (IH b (c + Qdist sqrt a b)). lra. }
  eapply Forall_impl; [|exact F]. cbn. intros p [P1 P2]. split; lra.
Qed.

(** Every segment of a flat chain has length zero and starts at a point that
    coincides with the first. *)
Lemma chain_flat_segments (rest : list (Q * Q)) :
  forall (a : Q * Q) (c : Q),
    snd (chain sqrt a rest c) <= c ->
    Forall (fun s => qlength s == 0
                     /\ fst (q1 s) == fst a /\ snd (q1 s) == snd a)
           (fst (chain sqrt a rest c)).
Proof.
  induction rest as [|b rest IH]; intros a c H; [constructor|].
  rewrite chain_cons in H |- *. cbn [fst snd] in H |- *.
  assert (G := chain_total_ge rest b (c + Qdist sqrt a b)).
  destruct (dist_finite a b) as (_ & Hn & Hz).
  assert (Z : Qdist sqrt a b == 0) by lra.
  constructor; [cbn; repeat split; auto; reflexivity|].
  apply Hz in Z. destruct Z as [Z1 Z2].
  assert (F := IH b (c + Qdist sqrt a b) ltac:(lra)).
  eapply Forall_impl; [|exact F]. cbn. intros s (S0 & S1 & S2).
  repeat split; lra.
Qed.

Lemma last_default_irrelevant (rest : list (Q * Q)) :
  forall p a b : Q * Q, last (p :: rest) a = last (p :: rest) b.
Proof.
  induction rest as [|q rest IH]; intros p a b; [reflexivity|].
  change (last (q :: rest) a = last (q :: rest) b). apply IH.
Qed.

Lemma last_cons_default (rest : list (Q * Q)) (a b : Q * Q) :
  last (b :: rest) a = last rest b.
Proof.
  destruct rest as [|p rest]; [reflexivity|].
  change (last (p :: rest) a = last (p :: rest) b).
  apply last_default_irrelevant.
Qed.

Lemma last_flat (rest : list (Q * Q)) (a : Q * Q) :
  Forall (fun b => fst b == fst a /\ snd b == snd a) rest ->
  fst (last rest a) == fst a /\ snd (last rest a) == snd a.
Proof.
  induction 1 as [|b rest Hb F IH]; [split; reflexivity|].
  destruct rest as [|b' rest']; [exact Hb|]. exact IH.
Qed.

(** *** Interpolation within one segment *)

Lemma eqb_Fin_zero (l : Q) : (Fin l === Fin 0)%js = Qeq_bool l 0.
Proof. reflexivity. Qed.

Lemma interpolateWithin_zero_length (s : QSegment) (t : number) :
  qlength s == 0 ->
  samePoint (interpolateWithin (segmentOf s) t) (point (q1 s)).
Proof.
  intros Hl. unfold interpolateWithin, segmentOf.
  cbn [length cumulative p1 p2 point x y].
  rewrite eqb_Fin_zero. apply Qeq_bool_iff in Hl. rewrite Hl.
  split; cbn; ring.
Qed.

Lemma interpolateWithin_start (s : QSegment) (T : Q) :
  T == qcumulative s ->
  samePoint (interpolateWithin (segmentOf s) (Fin T)) (point (q1 s)).
Proof.
  intros HT. unfold interpolateWithin, segmentOf.
  cbn [length cumulative p1 p2 point x y].
  rewrite eqb_Fin_zero.
  destruct (Qeq_bool (qlength s) 0) eqn:E; [split; cbn; ring|].
  apply Qeq_bool_false_iff in E.
  change (Fin T - Fin (qcumulative s))%js with (Fin (T - qcumulative s)).
  rewrite Fin_div by exact E.
  split; cbn; rewrite HT; field; exact E.
Qed.

Lemma interpolateWithin_end (s : QSegment) (T : Q) :
  T == qcumulative s + qlength s ->
  (qlength s == 0 -> fst (q1 s) == fst (q2 s) /\ snd (q1 s) == snd (q2 s)) ->
  samePoint (interpolateWithin (segmentOf s) (Fin T)) (point (q2 s)).
Proof.
  intros HT Hz. unfold interpolateWithin, segmentOf.
  cbn [length cumulative p1 p2 point x y].
  rewrite eqb_Fin_zero.
  destruct (Qeq_bool (qlength s) 0) eqn:E.
  - apply Qeq_bool_iff in E. destruct (Hz E) as [H1 H2].
    split; cbn; lra.
  - apply Qeq_bool_false_iff in E.
    change (Fin T - Fin (qcumulative s))%js with (Fin (T - qcumulative s)).
    rewrite Fin_div by exact E.
    split; cbn; rewrite HT; field; exact E.
Qed.

(** *** Locating the segment *)

(** The test of [segments.find] on a finite segment and target. *)
Lemma hit_finite (s : QSegment) (T : Q) :
  ((Fin T >=? cumulative (segmentOf s))
   && (Fin T <=? cumulative (segmentOf s) + length (segmentOf s)))%js = true
  <-> qcumulative s <= T /\ T <= qcumulative s + qlength s.
Proof.
  unfold segmentOf. cbn [cumulative length add]. unfold geb.
  rewrite andb_true_iff, !leb_Fin. tauto.
Qed.

Lemma find_at_end (rest : list (Q * Q)) :
  forall (a : Q * Q) (c T : Q),
    rest <> [] ->
    T == snd (chain sqrt a rest c) ->
    exists s : QSegment,
      find (hits (Fin T)) (map segmentOf (fst (chain sqrt a rest c)))
      = Some (segmentOf s)
      /\ samePoint (interpolateWithin (segmentOf s) (Fin T))
                   (point (last rest a)).
Proof.
  induction rest as [|b rest IH]; intros a c T Hne HT; [congruence|].
  rewrite chain_cons in HT |- *. cbn [fst snd map find] in HT |- *.
  set (s0 := {| q1 := a; q2 := b; qlength := Qdist sqrt a b; qcumulative := c |}).
  assert (G := chain_total_ge rest b (c + Qdist sqrt a b)).
  destruct (dist_finite a b) as (_ & Hn & Hz).
  destruct (hits (Fin T) (segmentOf s0)) eqn:E.
  - exists s0. split; [reflexivity|].
    apply hit_finite in E. cbn [s0 qcumulative qlength] in E.
    destruct E as [E1 E2].
    assert (F := @chain_flat rest b (c + Qdist sqrt a b) ltac:(lra)).
    apply last_flat in F. destruct F as [F1 F2].
    assert (P : samePoint (interpolateWithin (segmentOf s0) (Fin T)) (point b)).
    { apply (@interpolateWithin_end s0 T).
      - cbn [s0 qcumulative qlength]. lra.
      - cbn [s0 qlength q1 q2]. intros Z. apply Hz. exact Z. }
    destruct P as [P1 P2].
    rewrite last_cons_default.
    split; [rewrite P1 | rewrite P2]; cbn; lra.
  - assert (N : ~ (c <= T /\ T <= c + Qdist sqrt a b)).
    { intros H. apply (hit_finite s0 T) in H. unfold hits in E. congruence. }
    assert (Hrest : rest <> []).
    { intros ->. cbn in HT. apply N. lra. }
    destruct (IH b (c + Qdist sqrt a b) T Hrest HT) as (s & Hf & Hp).
    exists s. split; [exact Hf|].
    rewrite last_cons_default. exact Hp.
Qed.

(** *** The sampler on a path of finite points *)

Lemma getPointOnPolyline_finite (d : string) (a b : Q * Q)
    (rest : list (Q * Q)) (t : number) :
  parseCoords d = map point (a :: b :: rest) ->
  let segs := fst (chain sqrt a (b :: rest) 0) in
  let total := snd (chain sqrt a (b :: rest) 0) in
  let target := (t * Fin total)%js in
  getPointOnPolyline sqrt d t
  = match
      match find (hits target) (map segmentOf segs) with
      | Some s => Some s
      | None => nth_error (map segmentOf segs)
                  (List.length (map segmentOf segs) - 1)
      end
    with
    | None => Throw_TypeError
    | Some segment => Normal (interpolateWithin segment target)
    end.
Proof.
  intros Hd. cbv zeta. unfold getPointOnPolyline. rewrite Hd.
  change (List.length (map point (a :: b :: rest)) <? 2)%nat with false.
  cbv iota.
  change (buildSegments sqrt (map point (a :: b :: rest)))
    with (segmentsFrom sqrt (point a) (map point (b :: rest)) (Fin 0)).
  rewrite segmentsFrom_chain. reflexivity.
Qed.

Lemma sampler_start (d : string) (a b : Q * Q) (rest : list (Q * Q)) :
  parseCoords d = map point (a :: b :: rest) ->
  exists pt : Point,
    getPointOnPolyline sqrt d (Fin 0) = Normal pt /\ samePoint pt (point a).
Proof.
  intros Hd. rewrite (getPointOnPolyline_finite _ _ Hd). cbv zeta.
  set (L := snd (chain sqrt a (b :: rest) 0)).
  change (Fin 0 * Fin L)%js with (Fin (0 * L)).
  rewrite chain_cons. cbn [fst map find].
  set (s0 := {| q1 := a; q2 := b; qlength := Qdist sqrt a b; qcumulative := 0 |}).
  destruct (dist_finite a b) as (_ & Hn & _).
  assert (H : hits (Fin (0 * L)) (segmentOf s0) = true).
  { apply hit_finite. cbn [s0 qcumulative qlength]. lra. }
  rewrite H. eexists. split; [reflexivity|].
  apply (@interpolateWithin_start s0). cbn [s0 qcumulative]. ring.
Qed.

Lemma sampler_end (d : string) (a b : Q * Q) (rest : list (Q * Q)) :
  parseCoords d = map point (a :: b :: rest) ->
  exists pt : Point,
    getPointOnPolyline sqrt d (Fin 1) = Normal pt
    /\ samePoint pt (point (last (b :: rest) a)).
Proof.
  intros Hd. rewrite (getPointOnPolyline_finite _ _ Hd). cbv zeta.
  set (L := snd (chain sqrt a (b :: rest) 0)).
  change (Fin 1 * Fin L)%js with (Fin (1 * L)).
  destruct (@find_at_end (b :: rest) a 0 (1 * L)) as (s & Hf & Hp).
  - discriminate.
  - unfold L. ring.
  - rewrite Hf. eauto.
Qed.

Lemma sampler_flat (d : string) (a b : Q * Q) (rest : list (Q * Q))
    (t : number) :
  parseCoords d = map point (a :: b :: rest) ->
  snd (chain sqrt a (b :: rest) 0) == 0 ->
  exists pt : Point,
    getPointOnPolyline sqrt d t = Normal pt /\ samePoint pt (point a).
Proof.
  intros Hd HL. rewrite (getPointOnPolyline_finite _ _ Hd). cbv zeta.
  assert (F := @chain_flat_segments (b :: rest) a 0 ltac:(lra)).
  set (segs := fst (chain sqrt a (b :: rest) 0)) in *.
  assert (Hin : forall seg : Segment,
            In seg (map segmentOf segs) ->
            forall u : number, samePoint (interpolateWithin seg u) (point a)).
  { intros seg Hseg u. apply in_map_iff in Hseg.
    destruct Hseg as (s & <- & Hs).
    rewrite Forall_forall in F. destruct (F s Hs) as (Z & A1 & A2).
    destruct (interpolateWithin_zero_length s u Z) as [P1 P2].
    split; [rewrite P1 | rewrite P2]; cbn; assumption. }
  assert (N : map segmentOf segs <> []).
  { unfold segs. rewrite chain_cons. discriminate. }
  destruct (find _ (map segmentOf segs)) as [seg|] eqn:E.
  - apply find_some in E. destruct E as [E _].
    eexists. split; [reflexivity|]. apply Hin. exact E.
  - destruct (nth_error_last_some N) as [seg Hn]. rewrite Hn.
    eexists. split; [reflexivity|]. apply Hin.
    eapply nth_error_In. exact Hn.
Qed.

End SamplerFacts.

Section SamplerTheorems.

Import HydraulicLines.
Open Scope Q_scope.

(** The evaluable square root is one. *)
Lemma sqrt_up_spec : sqrt_spec sqrt_up.
Proof.
  intros q Hq. exists (Qsqrt_up q). unfold sqrt_up.
  assert (E : Qlt_bool q 0 = false) by (apply Qlt_bool_false_iff; exact Hq).
  rewrite E. split; [reflexivity|].
  unfold Qsqrt_up.
  set (n := Qceiling (q * inject_Z (2 ^ 64))).
  assert (Hpos : (0 < n)%Z <-> 0 < q).
  { unfold n. split; intros H.
    - assert (L := Qceiling_lt (q * inject_Z (2 ^ 64))).
      assert (Z1 : (0 <= Qceiling (q * inject_Z (2 ^ 64)) - 1)%Z) by lia.
      rewrite Zle_Qle in Z1. change (inject_Z 0) with 0 in Z1.
      assert (P : 0 < q * inject_Z (2 ^ 64)) by lra.
      apply Qlt_not_le in P. apply Qnot_le_lt. intros Hq0. apply P.
      assert (q == 0) by lra.
      setoid_replace q with 0 by assumption. discriminate.
    - assert (L := Qle_ceiling (q * inject_Z (2 ^ 64))).
      assert (P : 0 < q * inject_Z (2 ^ 64)).
      { apply Qmult_lt_0_compat; [exact H|reflexivity]. }
      rewrite Zlt_Qlt. change (inject_Z 0) with 0. lra. }
  assert (Hr : (0 <= Z.sqrt_up n)%Z) by apply Z.sqrt_up_nonneg.
  split.
  - unfold Qle. cbn. lia.
  - split; intros H.
    + assert (Z0 : Z.sqrt_up n = 0%Z).
      { unfold Qeq in H. cbn in H. lia. }
      destruct (Qlt_le_dec 0 q) as [P|P]; [|lra].
      apply Hpos in P. apply Z.sqrt_up_pos in P. lia.
    + assert (N : ~ (0 < n)%Z) by (rewrite Hpos; lra).
      assert (Z0 : Z.sqrt_up n = 0%Z).
      { destruct (Z.eq_dec (Z.sqrt_up n) 0) as [e|e]; auto.
        exfalso. apply N. apply Z.sqrt_up_pos. lia. }
      rewrite Z0. reflexivity.
Qed.



(** Half-way along the straight path from (0,0) to (10,0). *)
Example sampler_midpoint :
  exists pt : Point,
    getPointOnPolyline sqrt_up "M 0,0 L 10,0" (Fin 0.5) = Normal pt
    /\ samePoint pt (point (5, 0)).
Proof. eexists. split; [vm_compute; reflexivity|]. split; reflexivity. Qed.

(** C8.  The sampler never throws: for every text and every [t] it returns a
    point.  When the text gives fewer than two points it returns [(0, 0)];
    when the path has total length 0 (all its points coincide) it returns the
    first point, for any [t]. *)
Theorem sampler_never_throws
    (sqrt : number -> number) (d : string) (t : number) :
  (exists pt : Point, getPointOnPolyline sqrt d t = Normal pt)
  /\ ((List.length (parseCoords d) < 2)%nat ->
      getPointOnPolyline sqrt d t = Normal {| x := Fin 0; y := Fin 0 |})
  /\ (sqrt_spec sqrt ->
      forall pts : list (Q * Q),
        parseCoords d = map point pts ->
        (2 <= List.length pts)%nat ->
        snd (buildSegments sqrt (parseCoords d)) =~ Fin 0 ->
        exists pt : Point,
          getPointOnPolyline sqrt d t = Normal pt
          /\ samePoint pt (point (hd (0, 0) pts))).
Proof.
  split; [apply getPointOnPolyline_returns|].
  split; [apply getPointOnPolyline_short|].
  intros Hs pts Hd Hlen HL.
  destruct pts as [|a [|b rest]]; cbn in Hlen; try lia.
  rewrite Hd in HL.
  change (buildSegments sqrt (map point (a :: b :: rest)))
    with (segmentsFrom sqrt (point a) (map point (b :: rest)) (Fin 0)) in HL.
  rewrite (segmentsFrom_chain Hs) in HL. cbn [snd same] in HL.
  exact (sampler_flat Hs _ t Hd HL).
Qed.

Lemma sampler_never_throws_witness :
  getPointOnPolyline sqrt_up "M 5,5" (Fin 0.3)
    = Normal {| x := Fin 0; y := Fin 0 |}
  /\ exists pt : Point,
       getPointOnPolyline sqrt_up "M 5,5 L 5,5" NaN = Normal pt
       /\ samePoint pt (point (5, 5)).
Proof.
  split.
  - destruct (sampler_never_throws sqrt_up "M 5,5" (Fin 0.3)) as (_ & H & _).
    apply H. vm_compute. lia.
  - destruct (sampler_never_throws sqrt_up "M 5,5 L 5,5" NaN) as (_ & _ & H).
    apply (H sqrt_up_spec [(5, 5); (5, 5)]).
    + vm_compute. reflexivity.
    + cbn. lia.
    + vm_compute. reflexivity.
Defined.

End SamplerTheorems.

(* ================================================================== *)
(** ** HydraulicLines: the flow dots *)
(* ================================================================== *)

Section DotFacts.

Import HydraulicLines.
Open Scope Q_scope.

Lemma forEach_normal {A B : Type} (f : A -> completion B) (l : list A) :
  (forall a, exists b, f a = Normal b) ->
  exists bs : list B, forEach f l = Normal bs /\ List.length bs = List.length l.
Proof.
  intros Hf. induction l as [|a l (bs & E & Hlen)]; [exists []; auto|].
  destruct (Hf a) as (b & Eb).
  exists (b :: bs). cbn [forEach bind]. rewrite Eb. cbn [bind]. rewrite E.
  cbn. auto.
Qed.

Lemma geb_true_ltb_false (u v : number) :
  (u >=? v)%js = true -> (u <? v)%js = false.
Proof.
  unfold geb, leb.
  destruct u as [|[|]|p], v as [|[|]|q]; cbn; try discriminate; auto.
  rewrite orb_true_iff, Qlt_bool_iff, Qeq_bool_iff. intros H.
  apply Qlt_bool_false_iff. destruct H; lra.
Qed.

(** C9.  When [|flow| < 0.01] the flow animator produces no dots at all (it
    returns [null]); when [|flow| >= 0.01] it produces [numDots = 8] dots. *)
Theorem renderDots_suppressed_below_threshold
    (sqrt : number -> number) (props : HydraulicLinesProps)
    (frame : number) (path : string) (flow : number) :
  ((Math_abs flow <? Fin 0.01)%js = true ->
   renderDots sqrt props frame path flow = Normal None)
  /\ ((Math_abs flow >=? Fin 0.01)%js = true ->
      exists dots : list Dot,
        renderDots sqrt props frame path flow = Normal (Some dots)
        /\ List.length dots = 8%nat).
Proof.
  unfold renderDots. split; intros H.
  - rewrite H. reflexivity.
  - apply geb_true_ltb_false in H. rewrite H.
    match goal with
    | |- context [forEach ?f ?l] =>
        destruct (@forEach_normal _ _ f l) as (dots & E & Hlen)
    end.
    + intros i.
      match goal with
      | |- context [getPointOnPolyline sqrt path ?t] =>
          destruct (getPointOnPolyline_returns sqrt path t) as (pt & ->)
      end.
      cbn [bind]. eauto.
    + rewrite E. cbn [bind]. exists dots. split; [reflexivity|].
      rewrite Hlen. reflexivity.
Qed.

Lemma renderDots_suppressed_witness :
  renderDots sqrt_up CylinderPreview_lines (Fin 30)
    (pathA CylinderPreview_lines) (Fin 0.005) = Normal None
  /\ exists dots : list Dot,
       renderDots sqrt_up CylinderPreview_lines (Fin 30)
         (pathA CylinderPreview_lines) (Fin (-50)) = Normal (Some dots)
       /\ List.length dots = 8%nat.
Proof.
  split.
  - apply (renderDots_suppressed_below_threshold sqrt_up CylinderPreview_lines
             (Fin 30) (pathA CylinderPreview_lines) (Fin 0.005)).
    vm_compute. reflexivity.
  - apply (renderDots_suppressed_below_threshold sqrt_up CylinderPreview_lines
             (Fin 30) (pathA CylinderPreview_lines) (Fin (-50))).
    vm_compute. reflexivity.
Defined.

End DotFacts.

(* ================================================================== *)
(** ** The colour ramp *)
(* ================================================================== *)

Section ColorFacts.

Import ColorRamp.
Open Scope Q_scope.

#[global] Instance leb_proper : Proper (same ==> same ==> eq) leb.
Proof. intros a b H1 c d H2. unfold leb. rewrite H1, H2. reflexivity. Qed.

#[global] Instance geb_proper : Proper (same ==> same ==> eq) geb.
Proof. intros a b H1 c d H2. unfold geb. rewrite H1, H2. reflexivity. Qed.

Lemma toHex_same (c c' : number) : c =~ c' -> toHex c = toHex c'.
Proof.
  destruct c as [|a|p], c' as [|b|q]; cbn [same]; try tauto.
  - intros ->. reflexivity.
  - intros H. unfold toHex, Math_round.
    rewrite !Qfloor_inject_Z. rewrite H. reflexivity.
Qed.

Lemma lerp_same (a b t t' : number) : t =~ t' -> lerp a b t =~ lerp a b t'.
Proof. intros H. unfold lerp. rewrite H. reflexivity. Qed.

Lemma findSegmentFrom_same (t t' : number) (rest : list Stop) :
  t =~ t' ->
  forall start : Stop,
    findSegmentFrom t start rest = findSegmentFrom t' start rest.
Proof.
  intros H. induction rest as [|e rest IH]; intros start; [reflexivity|].
  cbn [findSegmentFrom]. rewrite IH.
  assert (E1 : (t >=? offset start)%js = (t' >=? offset start)%js)
    by (rewrite H; reflexivity).
  assert (E2 : (t <=? offset e)%js = (t' <=? offset e)%js)
    by (rewrite H; reflexivity).
  rewrite E1, E2.
  destruct ((t' >=? offset start) && (t' <=? offset e))%js; [|reflexivity].
  destruct (color start) as [[r0 g0] b0], (color e) as [[r1 g1] b1].
  assert (L : ((t - offset start) / (offset e - offset start))%js
              =~ ((t' - offset start) / (offset e - offset start))%js)
    by (rewrite H; reflexivity).
  unfold rgbToHex.
  rewrite (@toHex_same _ _ (@lerp_same r0 r1 _ _ L)),
    (@toHex_same _ _ (@lerp_same g0 g1 _ _ L)),
    (@toHex_same _ _ (@lerp_same b0 b1 _ _ L)).
  reflexivity.
Qed.

Lemma colorAt_same (p max p' max' : number) :
  normalize p max =~ normalize p' max' -> colorAt p max = colorAt p' max'.
Proof.
  intros H. unfold colorAt, findSegment, stops.
  rewrite (@findSegmentFrom_same _ _ _ H). reflexivity.
Qed.

Lemma Math_min_Fin (a b : Q) : Math_min (Fin a) (Fin b) =~ Fin (Qmin a b).
Proof.
  cbn [Math_min ltb].
  destruct (Qlt_bool b a) eqn:E; cbn [same].
  - apply Qlt_bool_iff in E. symmetry. apply Q.min_r. lra.
  - apply Qlt_bool_false_iff in E. symmetry. apply Q.min_l. exact E.
Qed.

Lemma Math_max_Fin (a b : Q) : Math_max (Fin a) (Fin b) =~ Fin (Qmax a b).
Proof.
  cbn [Math_max ltb].
  destruct (Qlt_bool a b) eqn:E; cbn [same].
  - apply Qlt_bool_iff in E. symmetry. apply Q.max_r. lra.
  - apply Qlt_bool_false_iff in E. symmetry. apply Q.max_l. exact E.
Qed.

Lemma normalize_finite (p max : Q) :
  ~ max == 0 ->
  normalize (Fin p) (Fin max) =~ Fin (Qmax 0 (Qmin p max) / max).
Proof.
  intros H. unfold normalize.
  rewrite Math_min_Fin, Math_max_Fin. rewrite Fin_div by exact H. reflexivity.
Qed.

(** Below a negative maximum every pressure is clamped to 0. *)
Lemma normalize_negative_max (p : number) (max : Q) :
  p <> NaN -> max < 0 -> normalize p (Fin max) =~ Fin 0.
Proof.
  intros Hp Hmax. unfold normalize.
  assert (C : Math_max (Fin 0) (Math_min p (Fin max)) =~ Fin 0).
  { destruct p as [|[|]|q]; [congruence| | |].
    - reflexivity.
    - cbn [Math_min ltb negb]. cbn [Math_max ltb].
      assert (E : Qlt_bool 0 max = false) by (apply Qlt_bool_false_iff; lra).
      rewrite E. reflexivity.
    - rewrite Math_min_Fin, Math_max_Fin. cbn [same]. apply Q.max_l.
      assert (M := Q.le_min_r q max). lra. }
  rewrite C. rewrite Fin_div by lra. cbn [same]. field. lra.
Qed.

Lemma colorAt_zero : colorAt (Fin 0) (Fin 1) = "#0000ff"%string.
Proof. vm_compute. reflexivity. Qed.

Lemma colorAt_negative_max (p : number) (max : Q) :
  p <> NaN -> max < 0 -> colorAt p (Fin max) = "#0000ff"%string.
Proof.
  intros Hp Hmax. rewrite <- colorAt_zero. apply colorAt_same.
  rewrite (@normalize_negative_max p max Hp Hmax). vm_compute. reflexivity.
Qed.

End ColorFacts.

Section ColorTheorem.

Open Scope Q_scope.

(** C6, the claim as stated fails at [max = 0]: [HydraulicLines] with
    [maxPressure = 0] colours a pressure of 0 red, and [HydraulicCylinder2D]
    with [maxP = 0] colours a pressure of 300 red. *)
Lemma getColor_zero_max_not_blue :
  HydraulicLines.getColor (HydraulicLines.linesWithMaxPressure (Fin 0)) (Fin 0)
    = "#ff0000"%string
  /\ HydraulicCylinder.getColor (Some (Fin 0)) (Fin 300) = "#ff0000"%string.
Proof. split; vm_compute; reflexivity. Qed.

(** C6, amended.  The colour ramp normalises its input as
    [t = clamp(value, 0, max) / max].  For every [max < 0] and every value
    other than [NaN] this gives [t = 0], and both components return the first
    stop colour, blue [#0000ff].  [HydraulicCylinder2D] replaces a maximum of
    0 by 300 before normalising. *)
Theorem getColor_normalisation :
  (forall p max : Q, ~ max == 0 ->
     ColorRamp.normalize (Fin p) (Fin max) =~ Fin (Qmax 0 (Qmin p max) / max))
  /\ (forall (props : HydraulicLines.HydraulicLinesProps) (p : number) (max : Q),
        p <> NaN -> max < 0 ->
        ColorRamp.normalize p (Fin max) =~ Fin 0
        /\ (HydraulicLines.maxPressure props = Some (Fin max) ->
            HydraulicLines.getColor props p = "#0000ff"%string)
        /\ HydraulicCylinder.getColor (Some (Fin max)) p = "#0000ff"%string)
  /\ (forall p : number,
        HydraulicCylinder.getColor (Some (Fin 0)) p
        = HydraulicCylinder.getColor (Some (Fin 300)) p).
Proof.
  split; [exact normalize_finite|]. split; [|reflexivity].
  intros props p max Hp Hmax.
  split; [exact (@normalize_negative_max p max Hp Hmax)|]. split.
  - intros Hprops. unfold HydraulicLines.getColor. rewrite Hprops.
    exact (@colorAt_negative_max p max Hp Hmax).
  - unfold HydraulicCylinder.getColor. cbn [default truthy].
    assert (E : Qeq_bool max 0 = false) by (apply Qeq_bool_false_iff; lra).
    rewrite E. exact (@colorAt_negative_max p max Hp Hmax).
Qed.

Lemma getColor_normalisation_witness :
  ColorRamp.normalize (Fin 150) (Fin 300) =~ Fin (Qmax 0 (Qmin 150 300) / 300)
  /\ HydraulicLines.getColor (HydraulicLines.linesWithMaxPressure (Fin (-1)))
       (Fin 50) = "#0000ff"%string
  /\ HydraulicCylinder.getColor (Some (Fin (-1))) (Fin 50) = "#0000ff"%string.
Proof.
  destruct getColor_normalisation as (N & B & _).
  assert (H300 : ~ 300 == 0) by discriminate.
  assert (Hp : Fin 50 <> NaN) by discriminate.
  assert (Hm : -1 < 0) by reflexivity.
  destruct (B (HydraulicLines.linesWithMaxPressure (Fin (-1))) (Fin 50) (-1)
              Hp Hm) as (_ & L & C).
  split; [exact (N 150 300 H300)|]. split; [exact (L eq_refl)|exact C].
Defined.

End ColorTheorem.

(* ================================================================== *)
(** * Further properties *)
(* ================================================================== *)

(** ** The path sampler between its end points *)

Section SamplerMore.

Import HydraulicLines.
Open Scope Q_scope.

Variable sqrt : number -> number.
Hypothesis sqrt_ok : sqrt_spec sqrt.

(** A target between the running sum and the total is hit by some segment,
    and [find] returns a segment that is hit. *)
Lemma find_in_range (rest : list (Q * Q)) :
  forall (a : Q * Q) (c T : Q),
    rest <> [] ->
    c <= T -> T <= snd (chain sqrt a rest c) ->
    exists s : QSegment,
      find (hits (Fin T)) (map segmentOf (fst (chain sqrt a rest c)))
      = Some (segmentOf s)
      /\ In s (fst (chain sqrt a rest c))
      /\ qcumulative s <= T /\ T <= qcumulative s + qlength s.
Proof.
  induction rest as [|b rest IH]; intros a c T Hne Hc HT; [congruence|].
  rewrite (chain_cons sqrt) in HT |- *. cbn [fst snd map find] in HT |- *.
  set (s0 := {| q1 := a; q2 := b; qlength := Qdist sqrt a b; qcumulative := c |}).
  destruct (hits (Fin T) (segmentOf s0)) eqn:E.
  - exists s0. split; [reflexivity|]. split; [left; reflexivity|].
    apply hit_finite in E. exact E.
  - assert (N : ~ (c <= T /\ T <= c + Qdist sqrt a b)).
    { intros H. apply (hit_finite s0 T) in H. unfold hits in E. congruence. }
    assert (Hgt : c + Qdist sqrt a b < T).
    { apply Qnot_le_lt. intros H. apply N. split; assumption. }
    assert (Hrest : rest <> []).
    { intros ->. cbn in HT. lra. }
    destruct (IH b (c + Qdist sqrt a b) T Hrest ltac:(lra) HT)
      as (s & Hf & Hin & Hs).
    exists s. split; [exact Hf|]. split; [right; exact Hin|exact Hs].
Qed.

(** The segments of a chain join consecutive points, each with its length. *)
Lemma chain_consecutive (rest : list (Q * Q)) :
  forall (a : Q * Q) (c : Q) (s : QSegment),
    In s (fst (chain sqrt a rest c)) ->
    qlength s = Qdist sqrt (q1 s) (q2 s)
    /\ exists i : nat,
         nth_error (a :: rest) i = Some (q1 s)
         /\ nth_error (a :: rest) (S i) = Some (q2 s).
Proof.
  induction rest as [|b rest IH]; intros a c s Hin; [destruct Hin|].
  rewrite (chain_cons sqrt) in Hin. cbn [fst] in Hin.
  destruct Hin as [<-|Hin].
  - cbn [q1 q2 qlength]. split; [reflexivity|]. exists 0%nat. split; reflexivity.
  - destruct (IH b _ s Hin) as (Hl & i & H1 & H2).
    split; [exact Hl|]. exists (S i). split; assumption.
Qed.

(** Within a segment that is hit the interpolation parameter is in [0, 1]. *)
Lemma interpolateWithin_hit (s : QSegment) (T : Q) :
  0 <= qlength s ->
  qcumulative s <= T -> T <= qcumulative s + qlength s ->
  exists k : Q,
    0 <= k /\ k <= 1
    /\ samePoint (interpolateWithin (segmentOf s) (Fin T))
         (point (fst (q1 s) + (fst (q2 s) - fst (q1 s)) * k,
                 snd (q1 s) + (snd (q2 s) - snd (q1 s)) * k)).
Proof.
  intros Hl H1 H2. unfold interpolateWithin, segmentOf.
  cbn [length cumulative p1 p2 point x y]. rewrite eqb_Fin_zero.
  destruct (Qeq_bool (qlength s) 0) eqn:E.
  - exists 0. split; [lra|]. split; [lra|]. split; reflexivity.
  - apply Qeq_bool_false_iff in E.
    change (Fin T - Fin (qcumulative s))%js with (Fin (T - qcumulative s)).
    rewrite Fin_div by exact E.
    exists ((T - qcumulative s) / qlength s).
    assert (Hpos : 0 < qlength s) by lra.
    split; [apply Qle_shift_div_l; lra|].
    split; [apply Qle_shift_div_r; lra|].
    split; reflexivity.
Qed.

Lemma sampler_on_polyline (d : string) (pts : list (Q * Q)) (t : Q) :
  parseCoords d = map point pts ->
  (2 <= List.length pts)%nat ->
  0 <= t -> t <= 1 ->
  exists pt : Point,
    getPointOnPolyline sqrt d (Fin t) = Normal pt /\ onPolyline pts pt.
Proof.
  intros Hd Hlen Ht0 Ht1.
  destruct pts as [|a [|b rest]]; cbn in Hlen; try lia.
  rewrite (getPointOnPolyline_finite sqrt_ok _ _ Hd). cbv zeta.
  set (L := snd (chain sqrt a (b :: rest) 0)).
  assert (HL : 0 <= L) by apply (chain_total_ge sqrt_ok).
  change (Fin t * Fin L)%js with (Fin (t * L)).
  assert (T0 : 0 <= t * L) by (apply Qmult_le_0_compat; assumption).
  assert (T1 : t * L <= L).
  { setoid_replace L with (1 * L) at 2 by ring.
    apply Qmult_le_compat_r; assumption. }
  destruct (@find_in_range (b :: rest) a 0 (t * L) ltac:(discriminate) T0 T1)
    as (s & Hf & Hin & H1 & H2).
  rewrite Hf.
  destruct (chain_consecutive _ _ _ _ Hin) as (Hl & i & N1 & N2).
  assert (Hlen0 : 0 <= qlength s).
  { rewrite Hl. apply (dist_finite sqrt_ok). }
  destruct (interpolateWithin_hit s Hlen0 H1 H2) as (k & K0 & K1 & Hp).
  eexists. split; [reflexivity|].
  exists i, (q1 s), (q2 s), k. repeat split; try assumption; apply Hp.
Qed.



(** Every segment of a chain lies between the running sum on entry and the
    total. *)
Lemma chain_bounds (rest : list (Q * Q)) :
  forall (a : Q * Q) (c : Q) (s : QSegment),
    In s (fst (chain sqrt a rest c)) ->
    c <= qcumulative s
    /\ qcumulative s + qlength s <= snd (chain sqrt a rest c).
Proof.
  induction rest as [|b rest IH]; intros a c s Hin; [destruct Hin|].
  rewrite (chain_cons sqrt) in Hin |- *. cbn [fst snd] in Hin |- *.
  assert (G := chain_total_ge sqrt_ok rest b (c + Qdist sqrt a b)).
  destruct (dist_finite sqrt_ok a b) as (_ & Hn & _).
  destruct Hin as [<-|Hin].
  - cbn [qcumulative qlength]. split; lra.
  - destruct (IH b _ s Hin) as [B1 B2]. split; lra.
Qed.

Lemma find_all_false {A : Type} (f : A -> bool) (l : list A) :
  (forall a, In a l -> f a = false) -> find f l = None.
Proof.
  induction l as [|a l IH]; intros H; [reflexivity|].
  cbn [find]. rewrite (H a (or_introl eq_refl)).
  apply IH. intros a' Ha. apply H. right. exact Ha.
Qed.


End SamplerMore.




(** ** The flow dots on the path *)

Section DotsMore.

Import HydraulicLines.
Open Scope Q_scope.

(** [x % 1], with 1 added when negative, is the fractional part of [x]. *)
Lemma wrap_is_fractional_part (x : Q) :
  let t := (Fin x %% Fin 1)%js in
  (if (t <? Fin 0)%js then (t + Fin 1)%js else t)
  =~ Fin (x - inject_Z (Qfloor x)).
Proof.
  cbv zeta. cbn [rem]. change (Qeq_bool 1 0) with false. cbv iota.
  assert (E1 : x / 1 == x) by (field).
  assert (T1 : Qle_bool 0 (x / 1) = Qle_bool 0 x) by (rewrite E1; reflexivity).
  assert (T2 : Qfloor (x / 1) = Qfloor x) by (rewrite E1; reflexivity).
  assert (T3 : Qceiling (x / 1) = Qceiling x) by (rewrite E1; reflexivity).
  unfold Qtrunc. rewrite T1, T2, T3. clear T1 T2 T3 E1.
  assert (F1 := Qfloor_le x). assert (F2 := Qlt_floor x).
  assert (C1 := Qle_ceiling x).
  assert (ZC : (Qceiling x - 1 < Qfloor x + 1)%Z).
  { rewrite Zlt_Qlt. eapply Qlt_trans; [apply Qceiling_lt|exact F2]. }
  rewrite inject_Z_plus in F2. change (inject_Z 1) with 1 in F2.
  destruct (Qle_bool 0 x) eqn:E.
  - cbn [ltb].
    assert (L : Qlt_bool (x - 1 * inject_Z (Qfloor x)) 0 = false).
    { apply Qlt_bool_false_iff. lra. }
    rewrite L. cbn [same]. ring.
  - cbn [ltb].
    destruct (Qlt_bool (x - 1 * inject_Z (Qceiling x)) 0) eqn:L.
    + apply Qlt_bool_iff in L. cbn [add same].
      assert (Z1 : (Qfloor x < Qceiling x)%Z).
      { rewrite Zlt_Qlt. lra. }
      assert (Z3 : Qceiling x = (Qfloor x + 1)%Z) by lia.
      rewrite Z3, inject_Z_plus. change (inject_Z 1) with 1. ring.
    + apply Qlt_bool_false_iff in L. cbn [same].
      assert (X : x == inject_Z (Qceiling x)) by lra.
      assert (Z1 : (Qceiling x <= Qfloor x)%Z).
      { assert (Z0 : (Qceiling x < Qfloor x + 1)%Z).
        { rewrite Zlt_Qlt, inject_Z_plus. change (inject_Z 1) with 1. lra. }
        lia. }
      assert (Z2 : (Qfloor x <= Qceiling x)%Z).
      { rewrite Zle_Qle. lra. }
      assert (Z3 : Qceiling x = Qfloor x) by lia.
      rewrite Z3. ring.
Qed.

Lemma fractional_part_range (x : Q) :
  0 <= x - inject_Z (Qfloor x) /\ x - inject_Z (Qfloor x) < 1.
Proof.
  assert (F1 := Qfloor_le x). assert (F2 := Qlt_floor x).
  rewrite inject_Z_plus in F2. change (inject_Z 1) with 1 in F2.
  split; lra.
Qed.

(** The clamp of the normalised flow is finite for every ratio but [NaN]. *)
Lemma clamp_unit_finite (v : number) :
  v <> NaN ->
  exists n : Q,
    Math_max (Fin (-1)) (Math_min (Fin 1) v) = Fin n /\ -1 <= n /\ n <= 1.
Proof.
  intros Hv. destruct v as [|[|]|q]; [congruence| | |].
  - exists (-1). split; [reflexivity|]. split; lra.
  - exists 1. split; [reflexivity|]. split; lra.
  - cbn [Math_min ltb].
    destruct (Qlt_bool q 1) eqn:E1; cbn [Math_max ltb].
    + apply Qlt_bool_iff in E1.
      destruct (Qlt_bool (-1) q) eqn:E2.
      * apply Qlt_bool_iff in E2. exists q. split; [reflexivity|]. split; lra.
      * exists (-1). split; [reflexivity|]. split; lra.
    + exists 1. split; [reflexivity|]. split; lra.
Qed.

Lemma ratio_not_NaN (flow : Q) (maxFlow : number) :
  ~ flow == 0 -> maxFlow <> NaN -> (Fin flow / maxFlow)%js <> NaN.
Proof.
  intros Hf Hm. destruct maxFlow as [| |m]; [congruence|discriminate|].
  cbn [div]. apply Qeq_bool_false_iff in Hf. rewrite Hf.
  destruct (Qeq_bool m 0); discriminate.
Qed.

Lemma forEach_Forall2 {A B : Type} (P : A -> B -> Prop)
    (f : A -> completion B) (l : list A) :
  (forall a, In a l -> exists b, f a = Normal b /\ P a b) ->
  exists bs : list B, forEach f l = Normal bs /\ Forall2 P l bs.
Proof.
  induction l as [|a l IH]; intros H; [exists []; split; constructor|].
  destruct (H a (or_introl eq_refl)) as (b & Eb & Pb).
  destruct IH as (bs & E & F); [intros a' Ha'; apply H; right; exact Ha'|].
  exists (b :: bs). cbn [forEach bind]. rewrite Eb. cbn [bind]. rewrite E.
  split; [reflexivity|]. constructor; assumption.
Qed.

Lemma abs_threshold (flow : Q) :
  (Math_abs (Fin flow) <? Fin 0.01)%js = false -> ~ flow == 0.
Proof.
  cbn [Math_abs ltb]. intros H E. apply Qlt_bool_false_iff in H.
  rewrite E in H. revert H. apply Qlt_not_le. reflexivity.
Qed.

Variable sqrt : number -> number.
Hypothesis sqrt_ok : sqrt_spec sqrt.


End DotsMore.



(** ** The colour ramp over all inputs *)

Section ColorMore.

Import ColorRamp.
Open Scope Q_scope.

Lemma zero_over (m : Q) :
  (Fin 0 / Fin m)%js = NaN
  \/ exists t : Q, (Fin 0 / Fin m)%js = Fin t /\ 0 <= t /\ t <= 1.
Proof.
  cbn [div]. destruct (Qeq_bool m 0); [left; reflexivity|].
  right. exists (0 / m). split; [reflexivity|].
  assert (Z : 0 / m == 0) by (unfold Qdiv; ring). rewrite Z. split; lra.
Qed.

Lemma part_over (c m : Q) :
  0 < c -> c <= m ->
  exists t : Q, (Fin c / Fin m)%js = Fin t /\ 0 <= t /\ t <= 1.
Proof.
  intros Hc Hm. cbn [div].
  assert (E : Qeq_bool m 0 = false) by (apply Qeq_bool_false_iff; lra).
  rewrite E. exists (c / m). split; [reflexivity|]. split.
  - apply Qle_shift_div_l; lra.
  - apply Qle_shift_div_r; lra.
Qed.

Lemma normalize_unit (p max : number) :
  normalize p max = NaN
  \/ exists t : Q, normalize p max = Fin t /\ 0 <= t /\ t <= 1.
Proof.
  unfold normalize.
  destruct p as [|[|]|p], max as [|[|]|m]; cbn [Math_min Math_max ltb negb andb];
    try (left; reflexivity);
    try (right; exists 0; split; [reflexivity|split; lra]).
  - apply zero_over.
  - destruct (Qlt_bool 0 m) eqn:L; [|apply zero_over].
    apply Qlt_bool_iff in L. right. apply part_over; lra.
  - destruct (Qlt_bool 0 p); right; exists 0; (split; [reflexivity|split; lra]).
  - destruct (Qlt_bool m p) eqn:L1; cbn [Math_max ltb].
    + apply Qlt_bool_iff in L1.
      destruct (Qlt_bool 0 m) eqn:L; [|apply zero_over].
      apply Qlt_bool_iff in L. right. apply part_over; lra.
    + apply Qlt_bool_false_iff in L1.
      destruct (Qlt_bool 0 p) eqn:L; [|apply zero_over].
      apply Qlt_bool_iff in L. right. apply part_over; lra.
Qed.

Lemma byte_hexPair (z : Z) :
  (0 <= z <= 255)%Z -> Text.hexPair (Text.padStart2 (Text.toString16 z)) = true.
Proof.
  intros Hz.
  assert (A : forallb (fun n => Text.hexPair (Text.padStart2 (Text.toString16 (Z.of_nat n))))
                (seq 0 256) = true) by (vm_compute; reflexivity).
  rewrite forallb_forall in A.
  rewrite <- (Z2Nat.id z) by lia. apply A. apply in_seq. lia.
Qed.

Lemma toHex_byte (v : Q) :
  0 <= v -> v <= 255 -> Text.hexPair (toHex (Fin v)) = true.
Proof.
  intros H0 H1. unfold toHex, Math_round. rewrite Qfloor_inject_Z.
  apply byte_hexPair. split.
  - change 0%Z with (Qfloor 0). apply Qfloor_resp_le. lra.
  - assert (F : (Qfloor (v + 0.5) < 256)%Z).
    { rewrite Zlt_Qlt. eapply Qle_lt_trans; [apply Qfloor_le|].
      change (inject_Z 256) with 256. lra. }
    lia.
Qed.

Lemma rgbToHex_hex (r g b : number) :
  Text.hexPair (toHex r) = true -> Text.hexPair (toHex g) = true ->
  Text.hexPair (toHex b) = true -> Text.isHexColor (rgbToHex r g b) = true.
Proof.
  unfold rgbToHex.
  destruct (toHex r) as [|r1 [|r2 [|]]]; try discriminate.
  destruct (toHex g) as [|g1 [|g2 [|]]]; try discriminate.
  destruct (toHex b) as [|b1 [|b2 [|]]]; try discriminate.
  cbn [Text.hexPair]. intros Hr Hg Hb.
  apply andb_true_iff in Hr, Hg, Hb.
  destruct Hr as [R1 R2], Hg as [G1 G2], Hb as [B1 B2].
  cbn -[Text.isHexDigit]. rewrite R1, R2, G1, G2, B1, B2. reflexivity.
Qed.

Lemma lerp_byte (a b k : Q) :
  0 <= a -> a <= 255 -> 0 <= b -> b <= 255 -> 0 <= k -> k <= 1 ->
  Text.hexPair (toHex (lerp (Fin a) (Fin b) (Fin k))) = true.
Proof.
  intros. unfold lerp. cbn [add sub mul neg].
  apply toHex_byte; nra.
Qed.

Lemma localT_unit (t s e : Q) :
  s < e -> s <= t -> t <= e ->
  exists k : Q,
    ((Fin t - Fin s) / (Fin e - Fin s))%js = Fin k /\ 0 <= k /\ k <= 1.
Proof.
  intros Hse Hs He. cbn [sub add neg].
  rewrite Fin_div by lra.
  exists ((t + - s) / (e + - s)). split; [reflexivity|]. split.
  - apply Qle_shift_div_l; lra.
  - apply Qle_shift_div_r; lra.
Qed.

Lemma colorAt_hex (p max : number) : Text.isHexColor (colorAt p max) = true.
Proof.
  unfold colorAt.
  destruct (normalize_unit p max) as [-> | (t & -> & H0 & H1)];
    [vm_compute; reflexivity|].
  unfold findSegment, stops.
  assert (G0 : (Fin t >=? Fin 0.0)%js = true) by (apply leb_Fin; lra).
  destruct (Qlt_le_dec 0.33 t) as [A|A].
  - assert (L1 : (Fin t <=? Fin 0.33)%js = false) by (apply leb_Fin_false; lra).
    assert (G1 : (Fin t >=? Fin 0.33)%js = true) by (apply leb_Fin; lra).
    destruct (Qlt_le_dec 0.66 t) as [B|B].
    + assert (L2 : (Fin t <=? Fin 0.66)%js = false)
        by (apply leb_Fin_false; lra).
      assert (G2 : (Fin t >=? Fin 0.66)%js = true) by (apply leb_Fin; lra).
      assert (L3 : (Fin t <=? Fin 1.0)%js = true) by (apply leb_Fin; lra).
      cbn [findSegmentFrom offset color]. rewrite G0, L1, G1, L2, G2, L3.
      cbn [andb].
      destruct (@localT_unit t 0.66 1.0) as (k & -> & K0 & K1); try lra.
      apply rgbToHex_hex; apply lerp_byte; lra.
    + assert (L2 : (Fin t <=? Fin 0.66)%js = true) by (apply leb_Fin; lra).
      cbn [findSegmentFrom offset color]. rewrite G0, L1, G1, L2.
      cbn [andb].
      destruct (@localT_unit t 0.33 0.66) as (k & -> & K0 & K1); try lra.
      apply rgbToHex_hex; apply lerp_byte; lra.
  - assert (L1 : (Fin t <=? Fin 0.33)%js = true) by (apply leb_Fin; lra).
    cbn [findSegmentFrom offset color]. rewrite G0, L1. cbn [andb].
    destruct (@localT_unit t 0.0 0.33) as (k & -> & K0 & K1); try lra.
    apply rgbToHex_hex; apply lerp_byte; lra.
Qed.

(** X5.  Both copies of [getColor] return a well-formed CSS colour, a hash
    sign followed by six hexadecimal digits, for every pressure and every
    maximum: non-finite values, a zero or negative maximum and [NaN]
    included.  No channel is ever printed as [NaN] or with a sign. *)
Theorem getColor_always_hex_colour :
  (forall (props : HydraulicLines.HydraulicLinesProps) (p : number),
     Text.isHexColor (HydraulicLines.getColor props p) = true)
  /\ (forall (maxP : option number) (p : number),
        Text.isHexColor (HydraulicCylinder.getColor maxP p) = true).
Proof.
  split; intros; [unfold HydraulicLines.getColor|unfold HydraulicCylinder.getColor];
    apply colorAt_hex.
Qed.

(** The colour at a pressure whose clamped value is [t0 * max]. *)
Lemma colorAt_scaled (p max t0 : Q) :
  0 < max -> 0 <= t0 -> t0 <= 1 ->
  Qmax 0 (Qmin p max) == t0 * max ->
  colorAt (Fin p) (Fin max) = colorAt (Fin t0) (Fin 1).
Proof.
  intros Hm H0 H1 E. apply colorAt_same.
  rewrite !normalize_finite by lra. cbn [same]. rewrite E.
  rewrite (Q.min_l t0 1) by lra. rewrite (Q.max_r 0 t0) by lra.
  field. lra.
Qed.

Lemma ramp_colours (p max : Q) :
  0 < max ->
  (p <= 0 -> colorAt (Fin p) (Fin max) = "#0000ff"%string)
  /\ (p == 0.33 * max -> colorAt (Fin p) (Fin max) = "#00ff00"%string)
  /\ (p == 0.66 * max -> colorAt (Fin p) (Fin max) = "#ffff00"%string)
  /\ (max <= p -> colorAt (Fin p) (Fin max) = "#ff0000"%string).
Proof.
  intros Hm. repeat split; intros Hp.
  - rewrite (@colorAt_scaled p max 0) by
      (try lra; rewrite (Q.min_l p max) by lra; rewrite (Q.max_l 0 p) by lra; ring).
    vm_compute. reflexivity.
  - rewrite (@colorAt_scaled p max 0.33) by
      (try lra; rewrite (Q.min_l p max) by lra; rewrite (Q.max_r 0 p) by lra;
       exact Hp).
    vm_compute. reflexivity.
  - rewrite (@colorAt_scaled p max 0.66) by
      (try lra; rewrite (Q.min_l p max) by lra; rewrite (Q.max_r 0 p) by lra;
       exact Hp).
    vm_compute. reflexivity.
  - rewrite (@colorAt_scaled p max 1) by
      (try lra; rewrite (Q.min_r p max) by lra; rewrite (Q.max_r 0 max) by lra;
       ring).
    vm_compute. reflexivity.
Qed.

(** X6.  For a positive maximum pressure both copies of [getColor] give the
    four stop colours at the four stops: blue for every pressure at or below
    0, green at 0.33 of the maximum, yellow at 0.66 of it, and red for every
    pressure at or above the maximum. *)
Theorem getColor_stop_colours
    (props : HydraulicLines.HydraulicLinesProps) (p max : Q) :
  HydraulicLines.maxPressure props = Some (Fin max) ->
  0 < max ->
  let lines := HydraulicLines.getColor props (Fin p) in
  let cylinder := HydraulicCylinder.getColor (Some (Fin max)) (Fin p) in
  lines = cylinder
  /\ (p <= 0 -> lines = "#0000ff"%string)
  /\ (p == 0.33 * max -> lines = "#00ff00"%string)
  /\ (p == 0.66 * max -> lines = "#ffff00"%string)
  /\ (max <= p -> lines = "#ff0000"%string).
Proof.
  intros Hprops Hm. cbv zeta.
  unfold HydraulicLines.getColor, HydraulicCylinder.getColor.
  rewrite Hprops. cbn [default truthy].
  assert (E : Qeq_bool max 0 = false) by (apply Qeq_bool_false_iff; lra).
  rewrite E. cbn [negb]. split; [reflexivity|].
  exact (@ramp_colours p max Hm).
Qed.

End ColorMore.

Lemma getColor_stop_colours_witness :
  let props := HydraulicLines.linesWithMaxPressure (Fin 200) in
  HydraulicLines.getColor props (Fin 66)
  = HydraulicCylinder.getColor (Some (Fin 200)) (Fin 66)
  /\ HydraulicLines.getColor props (Fin 66) = "#00ff00"%string.
Proof.
  intros props.
  assert (Hm : (0 < 200)%Q) by reflexivity.
  destruct (@getColor_stop_colours props 66 200 eq_refl Hm)
    as (S & _ & G & _).
  split; [exact S|]. apply G. reflexivity.
Defined.

(** ** NumberPlane2D: the plot rectangle *)

Section MapperMore.

Import NumberPlane.
Open Scope Q_scope.

Variables (w h x0 x1 y0 y1 : Q) (pad : option Q).

Let p := plane w h x0 x1 y0 y1 pad.
Let padQ : Q := match pad with Some q => q | None => 20 end.

Lemma unit_fraction (v lo hi : Q) :
  lo < hi -> lo <= v -> v <= hi ->
  0 <= (v - lo) / (hi - lo) /\ (v - lo) / (hi - lo) <= 1.
Proof.
  intros H Hlo Hhi. split.
  - apply Qle_shift_div_l; lra.
  - apply Qle_shift_div_r; lra.
Qed.


End MapperMore.


Section DegenerateRange.

Import NumberPlane.
Open Scope Q_scope.

Variables (w h x0 x1 y0 y1 : Q) (pad : option Q).

Let p := plane w h x0 x1 y0 y1 pad.

Lemma over_zero_span_not_finite (v lo hi : Q) (base size : number) :
  lo == hi ->
  let fraction := ((Fin v - Fin lo) / (Fin hi - Fin lo))%js in
  isFinite (base + fraction * size)%js = false
  /\ isFinite (base - fraction * size)%js = false.
Proof.
  intros Hs. cbn [sub add neg div].
  assert (E : Qeq_bool (hi + - lo) 0 = true) by (apply Qeq_bool_iff; lra).
  rewrite E.
  destruct (Qeq_bool (v + - lo) 0);
    [destruct base as [|[|]|b], size as [|[|]|s]; split; reflexivity|].
  destruct (Qlt_bool (v + - lo) 0), base as [|[|]|b], size as [|[|]|s];
    cbn [mul add neg xorb]; try (split; reflexivity);
    destruct (Qeq_bool s 0); try (split; reflexivity);
    destruct (Qlt_bool s 0); split; reflexivity.
Qed.

(** X8.  The mapping functions do not guard against an empty range: when the
    two ends of a range are equal, no value at all is mapped to a finite
    screen coordinate (the result is [NaN] or an infinity), whatever the size
    and the padding of the component. *)
Theorem empty_range_maps_nothing (v : Q) :
  (x0 == x1 -> isFinite (mapX p (Fin v)) = false)
  /\ (y0 == y1 -> isFinite (mapY p (Fin v)) = false).
Proof.
  split; intros H.
  - unfold mapX, xSpan, xMin, xMax, p, plane. cbn [xRange fst snd].
    apply over_zero_span_not_finite. exact H.
  - unfold mapY, ySpan, yMin, yMax, p, plane. cbn [yRange fst snd].
    apply over_zero_span_not_finite. exact H.
Qed.

End DegenerateRange.

Lemma empty_range_maps_nothing_witness :
  let p := NumberPlane.plane 800 500 3 3 7 7 (Some 40) in
  isFinite (NumberPlane.mapX p (Fin 3)) = false
  /\ isFinite (NumberPlane.mapY p (Fin 8)) = false.
Proof.
  intros p.
  assert (E3 : (3 == 3)%Q) by reflexivity.
  assert (E7 : (7 == 7)%Q) by reflexivity.
  split.
  - exact (proj1 (@empty_range_maps_nothing 800 500 3 3 7 7 (Some 40) 3) E3).
  - exact (proj2 (@empty_range_maps_nothing 800 500 3 3 7 7 (Some 40) 8) E7).
Defined.

(** ** NumberPlane2D: where the axes are drawn *)

Section AxisMore.

Import NumberPlane.
Open Scope Q_scope.

Variables (w h x0 x1 y0 y1 : Q) (pad : option Q).

Let p := plane w h x0 x1 y0 y1 pad.
Let padQ : Q := match pad with Some q => q | None => 20 end.

Lemma finalAxisX_finite :
  x0 < x1 ->
  finalAxisX p
  = Fin (padQ + ((if Qlt_bool 0 x0 then x0
                  else if Qlt_bool x1 0 then x1 else 0) - x0)
                / (x1 - x0) * (w - 2 * padQ)).
Proof.
  intros Hx. unfold finalAxisX.
  change (xMin p) with (Fin x0). change (xMax p) with (Fin x1).
  cbn [gtb ltb].
  destruct (Qlt_bool 0 x0); [|destruct (Qlt_bool x1 0)];
    apply (@mapX_finite w h x0 x1 y0 y1 pad); exact Hx.
Qed.

Lemma finalAxisY_finite :
  y0 < y1 ->
  finalAxisY p
  = Fin (padQ + (h - 2 * padQ)
         - ((if Qlt_bool 0 y0 then y0
             else if Qlt_bool y1 0 then y1 else 0) - y0)
           / (y1 - y0) * (h - 2 * padQ)).
Proof.
  intros Hy. unfold finalAxisY.
  change (yMin p) with (Fin y0). change (yMax p) with (Fin y1).
  cbn [gtb ltb].
  destruct (Qlt_bool 0 y0); [|destruct (Qlt_bool y1 0)];
    apply (@mapY_finite w h x0 x1 y0 y1 pad); exact Hy.
Qed.


End AxisMore.


(** ** NumberPlane2D: tick steps the loop is not safe for *)

Section TickMore.

Import NumberPlane.
Open Scope Q_scope.

(** With a negative step the loop never leaves the range. *)
Lemma getTicks_loop_negative_step (fuel : nat) :
  forall v max step : Q,
    step < 0 -> v <= max + 0.000000001 ->
    getTicks_loop fuel (Fin v) (Fin max) (Fin step) = None.
Proof.
  induction fuel as [|fuel IH]; intros v max step Hs Hv; [reflexivity|].
  rewrite getTicks_loop_S.
  assert (E : (Fin v <=? Fin (max + 0.000000001))%js = true)
    by (apply leb_Fin; exact Hv).
  rewrite E. change (Fin v + Fin step)%js with (Fin (v + step)).
  rewrite IH by lra. reflexivity.
Qed.


End TickMore.


(** ** NumberPlane2D: the automatic tick step *)

Section AutoTicks.

Import NumberPlane.
Open Scope Q_scope.

(** The step chosen for a positive range gives between [0.7 T] and [1.75 T]
    intervals, [T] the number of ticks asked for. *)
Lemma getNiceStep_ratio (range ticks : Q) :
  0 < range -> 0 < ticks ->
  exists s : Q,
    getNiceStep (Fin range) (Some (Fin ticks)) = Fin s
    /\ 0 < s /\ 0.7 * ticks * s <= range /\ range < 1.75 * ticks * s.
Proof.
  intros Hr Ht. unfold getNiceStep. cbn [default].
  rewrite Fin_div by lra.
  set (raw := range / ticks).
  assert (P : 0 < raw) by (apply Qlt_shift_div_l; lra).
  assert (R : range == raw * ticks) by (unfold raw; field; lra).
  cbn [Math_floor_log10].
  assert (E1 : Qlt_bool raw 0 = false) by (apply Qlt_bool_false_iff; lra).
  assert (E2 : Qeq_bool raw 0 = false) by (apply Qeq_bool_false_iff; lra).
  rewrite E1, E2. cbn [Math_pow10]. rewrite Qfloor_inject_Z.
  destruct (floor_log10_spec P) as [Lo Hi].
  set (k := floor_log10 raw) in *.
  assert (K := ten_pow_pos k).
  rewrite Qpower_plus in Hi by discriminate.
  change (10 ^ 1) with 10 in Hi.
  set (m := 10 ^ k) in *. clearbody m.
  rewrite Fin_div by lra. cbn [ltb mul].
  assert (N : raw / m * m == raw) by (field; lra).
  destruct (Qlt_bool (raw / m) 1.5) eqn:C1.
  { apply Qlt_bool_iff in C1.
    assert (raw < 1.5 * m) by nra.
    eexists. split; [reflexivity|]. rewrite R. repeat split; nra. }
  apply Qlt_bool_false_iff in C1. assert (1.5 * m <= raw) by nra.
  destruct (Qlt_bool (raw / m) 3.5) eqn:C2.
  { apply Qlt_bool_iff in C2.
    assert (raw < 3.5 * m) by nra.
    eexists. split; [reflexivity|]. rewrite R. repeat split; nra. }
  apply Qlt_bool_false_iff in C2. assert (3.5 * m <= raw) by nra.
  destruct (Qlt_bool (raw / m) 7.5) eqn:C3.
  { apply Qlt_bool_iff in C3.
    assert (raw < 7.5 * m) by nra.
    eexists. split; [reflexivity|]. rewrite R. repeat split; nra. }
  apply Qlt_bool_false_iff in C3. assert (7.5 * m <= raw) by nra.
  eexists. split; [reflexivity|]. rewrite R. repeat split; nra.
Qed.


(** The number of values the loop returns. *)
Lemma getTicks_loop_length_ge (max step : Q) (k : nat) :
  forall (n : nat) (v : Q) (l : list number),
    0 < step ->
    getTicks_loop n (Fin v) (Fin max) (Fin step) = Some l ->
    v + inject_Z (Z.of_nat k) * step <= max + 0.000000001 ->
    (k < List.length l)%nat.
Proof.
  induction k as [|k IH]; intros [|n] v l Hs Hrun Hk; try discriminate;
    rewrite getTicks_loop_S in Hrun;
    change (Fin v + Fin step)%js with (Fin (v + step)) in Hrun.
  - change (inject_Z (Z.of_nat 0)) with 0 in Hk.
    assert (E : (Fin v <=? Fin (max + 0.000000001))%js = true)
      by (apply leb_Fin; lra).
    rewrite E in Hrun.
    destruct (getTicks_loop n (Fin (v + step)) (Fin max) (Fin step));
      [|discriminate].
    injection Hrun as <-. cbn [List.length]. lia.
  - rewrite Nat2Z.inj_succ, <- Z.add_1_r, inject_Z_plus in Hk.
    change (inject_Z 1) with 1 in Hk.
    assert (0 <= inject_Z (Z.of_nat k) * step).
    { apply Qmult_le_0_compat; [|lra].
      change 0 with (inject_Z 0). rewrite <- Zle_Qle. lia. }
    assert (E : (Fin v <=? Fin (max + 0.000000001))%js = true)
      by (apply leb_Fin; lra).
    rewrite E in Hrun.
    destruct (getTicks_loop n (Fin (v + step)) (Fin max) (Fin step)) as [l'|]
      eqn:R; [|discriminate].
    injection Hrun as <-. cbn [List.length].
    assert (k < List.length l')%nat; [|lia].
    apply (IH n (v + step) l' Hs R). lra.
Qed.

Lemma getTicks_loop_length_le (max step : Q) (k : nat) :
  forall (n : nat) (v : Q) (l : list number),
    0 < step ->
    getTicks_loop n (Fin v) (Fin max) (Fin step) = Some l ->
    max + 0.000000001 < v + inject_Z (Z.of_nat k) * step ->
    (List.length l <= k)%nat.
Proof.
  induction k as [|k IH]; intros [|n] v l Hs Hrun Hk; try discriminate;
    rewrite getTicks_loop_S in Hrun;
    change (Fin v + Fin step)%js with (Fin (v + step)) in Hrun.
  - change (inject_Z (Z.of_nat 0)) with 0 in Hk.
    assert (E : (Fin v <=? Fin (max + 0.000000001))%js = false)
      by (apply leb_Fin_false; lra).
    rewrite E in Hrun. injection Hrun as <-. cbn [List.length]. lia.
  - rewrite Nat2Z.inj_succ, <- Z.add_1_r, inject_Z_plus in Hk.
    change (inject_Z 1) with 1 in Hk.
    destruct (Fin v <=? Fin (max + 0.000000001))%js;
      [|injection Hrun as <-; cbn [List.length]; lia].
    destruct (getTicks_loop n (Fin (v + step)) (Fin max) (Fin step)) as [l'|]
      eqn:R; [|discriminate].
    injection Hrun as <-. cbn [List.length].
    assert (List.length l' <= k)%nat; [|lia].
    apply (IH n (v + step) l' Hs R). lra.
Qed.

(** The ticks of a range whose step gives between [a] and [b] intervals. *)
Lemma ticks_of_nice_step (min max s a b : Q) (lo hi : nat) :
  0 < s ->
  a * s <= max - min -> max - min < b * s ->
  inject_Z (Z.of_nat lo) <= a ->
  b * s + 0.000000001 <= inject_Z (Z.of_nat hi) * s ->
  exists (n0 : nat) (qs : list Q),
    (forall fuel : nat, (n0 <= fuel)%nat ->
       getTicks fuel (Fin min) (Fin max) (Fin s) = Some (map Fin qs))
    /\ (lo <= List.length qs)%nat /\ (List.length qs <= hi)%nat
    /\ Forall (fun q => min <= q /\ q <= max + 0.000000001) qs.
Proof.
  intros Hs Ha Hb Hlo Hhi.
  set (start := inject_Z (Qceiling (min / s)) * s).
  assert (S0 : min <= start /\ start < min + s).
  { assert (C1 := Qle_ceiling (min / s)). assert (C2 := Qceiling_lt (min / s)).
    assert (ZC : inject_Z (Qceiling (min / s)) < min / s + 1).
    { unfold Z.sub in C2. rewrite inject_Z_plus, inject_Z_opp in C2.
      change (inject_Z 1) with 1 in C2. lra. }
    assert (E : min / s * s == min) by (field; lra).
    unfold start. split; nra. }
  destruct (@steps_to_bound max s Hs start) as (n & Hn).
  destruct (@getTicks_loop_spec max s Hs n start Hn)
    as (qs & Hrun & _ & Hlow & Hmem).
  exists (S n), qs. split; [|split; [|split]].
  - intros fuel Hfuel. unfold getTicks.
    rewrite Fin_div by lra. cbn [Math_ceil mul]. fold start.
    eapply getTicks_loop_mono_le; eauto.
  - destruct lo as [|lo]; [lia|].
    assert (G := @getTicks_loop_length_ge max s lo (S n) start _ Hs Hrun).
    rewrite length_map in G. apply G.
    rewrite Nat2Z.inj_succ, <- Z.add_1_r, inject_Z_plus in Hlo.
    change (inject_Z 1) with 1 in Hlo.
    assert (0 <= inject_Z (Z.of_nat lo)).
    { change 0 with (inject_Z 0). rewrite <- Zle_Qle. lia. }
    nra.
  - assert (G := @getTicks_loop_length_le max s hi (S n) start _ Hs Hrun).
    rewrite length_map in G. apply G. lra.
  - apply Forall_forall. intros q Hq. split.
    + rewrite Forall_forall in Hlow. specialize (Hlow q Hq). lra.
    + destruct (proj1 (Hmem q) (ex_intro _ q (conj Hq (Qeq_refl q))))
        as (_ & _ & Hb'). exact Hb'.
Qed.


End AutoTicks.



(** ** Camera2D: the viewport on the screen *)

Section CameraMore.

Import Camera.
Open Scope Q_scope.

Variable R : RemotionAPI.


Lemma width_after_zoom (p : Camera2DProps) (frame : number) (zoom : option number) :
  let i := interpolated R p frame in
  let cw := fst (applyConstraints p (width i, height i)) in
  let z := default (Fin 1) zoom in
  width (state (Camera2D R (withZoom p zoom) frame))
  = (if (z !== Fin 1)%js then (cw / z)%js else cw)
  /\ centerX (state (Camera2D R (withZoom p zoom) frame)) = centerX i
  /\ centerY (state (Camera2D R (withZoom p zoom) frame)) = centerY i.
Proof.
  cbv zeta. rewrite Camera2D_state. cbv zeta. cbn [width centerX centerY].
  change (interpolated R (withZoom p zoom) frame) with (interpolated R p frame).
  split; [|split; reflexivity].
  change (applyConstraints (withZoom p zoom)) with (applyConstraints p).
  destruct (applyConstraints p _) as [cw ch]. 
  unfold applyZoom. change (zoomMultiplier (withZoom p zoom)) with zoom.
  cbn [fst].
  destruct (default (Fin 1) zoom !== Fin 1)%js; unfold aspectCorrection;
    destruct (default true (maintainAspectRatio (withZoom p zoom)));
    reflexivity.
Qed.


Lemma clamp_between (v lo hi : Q) :
  0 < lo -> 0 < hi ->
  exists r : Q,
    Math_min (Math_max (Fin v) (Fin lo)) (Fin hi) = Fin r
    /\ r <= hi /\ (lo <= hi -> lo <= r)
    /\ (lo <= v -> v <= hi -> r = v) /\ (hi < lo -> r = hi).
Proof.
  intros Hlo Hhi. cbn [Math_max ltb].
  destruct (Qlt_bool v lo) eqn:A; cbn [Math_min ltb].
  - apply Qlt_bool_iff in A. destruct (Qlt_bool hi lo) eqn:B.
    + apply Qlt_bool_iff in B. exists hi. split; [reflexivity|].
      repeat split; intros; try lra; reflexivity.
    + apply Qlt_bool_false_iff in B. exists lo. split; [reflexivity|].
      repeat split; intros; lra.
  - apply Qlt_bool_false_iff in A. destruct (Qlt_bool hi v) eqn:B.
    + apply Qlt_bool_iff in B. exists hi. split; [reflexivity|].
      repeat split; intros; try lra; reflexivity.
    + apply Qlt_bool_false_iff in B. exists v. split; [reflexivity|].
      repeat split; intros; try lra; reflexivity.
Qed.

Lemma positive_truthy (m : Q) : 0 < m -> truthy_opt (Some (Fin m)) = true.
Proof.
  intros Hm. cbn [truthy_opt truthy].
  apply negb_true_iff, Qeq_bool_false_iff. lra.
Qed.

(** X15.  With both a positive minimum and a positive maximum given, the
    constrained width (and likewise the height) never exceeds the maximum, is
    at least the minimum when the two bounds are consistent, is the
    interpolated value when that lies between them, and is the maximum when
    the minimum is larger than the maximum: the maximum is applied last and
    wins. *)
Theorem size_bounds_clamp (p : Camera2DProps) (w h lo hi : Q) :
  0 < lo -> 0 < hi ->
  (minWidth p = Some (Fin lo) -> maxWidth p = Some (Fin hi) ->
   exists r : Q,
     fst (applyConstraints p (Fin w, Fin h)) = Fin r
     /\ r <= hi /\ (lo <= hi -> lo <= r)
     /\ (lo <= w -> w <= hi -> r = w) /\ (hi < lo -> r = hi))
  /\ (minHeight p = Some (Fin lo) -> maxHeight p = Some (Fin hi) ->
      exists r : Q,
        snd (applyConstraints p (Fin w, Fin h)) = Fin r
        /\ r <= hi /\ (lo <= hi -> lo <= r)
        /\ (lo <= h -> h <= hi -> r = h) /\ (hi < lo -> r = hi)).
Proof.
  intros Hlo Hhi. split; intros Hmin Hmax; unfold applyConstraints;
    rewrite Hmin, Hmax, !positive_truthy by assumption;
    cbn [default fst snd].
  - destruct (truthy_opt (minHeight p)), (truthy_opt (maxHeight p));
      cbn [fst]; apply clamp_between; assumption.
  - destruct (truthy_opt (minWidth p)), (truthy_opt (maxWidth p));
      cbn [snd]; apply clamp_between; assumption.
Qed.

End CameraMore.



Lemma size_bounds_clamp_witness :
  let p := Camera.withBounds CameraDemo_props
             (Some (Fin 100)) (Some (Fin 500)) None None in
  exists r : Q,
    fst (Camera.applyConstraints p (Fin 50, Fin 50)) = Fin r
    /\ (r <= 500 /\ 100 <= r)%Q.
Proof.
  intros p.
  assert (Hlo : (0 < 100)%Q) by reflexivity.
  assert (Hhi : (0 < 500)%Q) by reflexivity.
  destruct (proj1 (@size_bounds_clamp p 50 50 100 500 Hlo Hhi)
              eq_refl eq_refl) as (r & E & U & L & _).
  exists r. split; [exact E|]. split; [exact U|]. apply L. discriminate.
Defined.

(** ** MouseCoordinateOverlay *)

Section OverlayMore.

Open Scope Q_scope.

Lemma clamp_to_scene (v s : Q) :
  0 <= s ->
  exists r : Q,
    Math_max (Fin 0) (Math_min (Fin v) (Fin s)) = Fin r
    /\ 0 <= r /\ r <= s /\ (0 <= v -> v <= s -> r == v).
Proof.
  intros Hs. cbn [Math_min ltb].
  destruct (Qlt_bool s v) eqn:A; cbn [Math_max ltb];
    [apply Qlt_bool_iff in A; destruct (Qlt_bool 0 s) eqn:B
    |apply Qlt_bool_false_iff in A; destruct (Qlt_bool 0 v) eqn:B];
    (apply Qlt_bool_iff in B || apply Qlt_bool_false_iff in B);
    eexists; (split; [reflexivity|]);
    repeat split; intros; lra.
Qed.


Variable R : RemotionAPI.


End OverlayMore.



(** ** HydraulicCylinder2D: piston and force arrow *)

Section CylinderMore.

Import HydraulicCylinder.
Open Scope Q_scope.

Lemma clamp_unit (v : number) :
  v <> NaN ->
  exists c : Q,
    Math_min (Math_max v (Fin 0)) (Fin 1) = Fin c /\ 0 <= c /\ c <= 1
    /\ (forall q : Q, v = Fin q -> 0 <= q -> q <= 1 -> c = q).
Proof.
  intros Hv. destruct v as [|[|]|q]; [congruence| | |].
  - exists 0. split; [reflexivity|]. repeat split; try lra. discriminate.
  - exists 1. split; [reflexivity|]. repeat split; try lra. discriminate.
  - cbn [Math_max ltb].
    destruct (Qlt_bool q 0) eqn:A; cbn [Math_min ltb].
    + apply Qlt_bool_iff in A. exists 0. split; [reflexivity|].
      repeat split; try lra. intros q' [= <-] H0 H1. exfalso; lra.
    + apply Qlt_bool_false_iff in A. destruct (Qlt_bool 1 q) eqn:B.
      * apply Qlt_bool_iff in B. exists 1. split; [reflexivity|].
        repeat split; try lra. intros q' [= <-] H0 H1. exfalso; lra.
      * apply Qlt_bool_false_iff in B. exists q. split; [reflexivity|].
        repeat split; try lra. intros q' [= <-] _ _. reflexivity.
Qed.

Lemma currentPistonX_finite (pistonPosition : option number) :
  default (Fin 0.5) pistonPosition <> NaN ->
  exists x c : Q,
    currentPistonX pistonPosition = Fin x /\ x == 56 + 163 * c
    /\ 0 <= c /\ c <= 1
    /\ (forall q : Q, default (Fin 0.5) pistonPosition = Fin q ->
          0 <= q -> q <= 1 -> c = q).
Proof.
  intros Hv. destruct (clamp_unit Hv) as (c & E & H0 & H1 & Hq).
  unfold currentPistonX. cbv zeta. rewrite E.
  unfold minPistonX, maxPistonX, cylinderX, wallThickness, cylinderLength,
    pistonWidth.
  cbn [add sub neg mul]. eexists. exists c.
  split; [reflexivity|]. split; [ring|auto].
Qed.

(** X18.  Whatever [pistonPosition] is, short of [NaN], the piston head
    stays between the two end walls of the barrel: its left face is between
    56 and 219, the two chambers have the widths [x - 50] and [225 - x]
    (both at least the wall thickness, so the guards [Math.max(0, ...)] never
    take effect), and the chambers and the piston together fill the 200
    units of the barrel.  For a position in [0, 1] the face is at
    [56 + 163 * position]. *)
Theorem piston_stays_in_barrel (pistonPosition : option number) :
  default (Fin 0.5) pistonPosition <> NaN ->
  exists x : Q,
    currentPistonX pistonPosition = Fin x
    /\ 56 <= x /\ x <= 219
    /\ rodX pistonPosition =~ Fin (x + 25)
    /\ capChamberWidth pistonPosition =~ Fin (x - 50)
    /\ rodChamberWidth pistonPosition =~ Fin (250 - (x + 25))
    /\ (forall q : Q, default (Fin 0.5) pistonPosition = Fin q ->
          0 <= q -> q <= 1 -> x == 56 + 163 * q).
Proof.
  intros Hv.
  destruct (currentPistonX_finite pistonPosition Hv)
    as (x & c & E & Ex & H0 & H1 & Hq).
  exists x. split; [exact E|]. split; [lra|]. split; [lra|].
  unfold rodX, capChamberWidth, rodChamberWidth. rewrite E.
  unfold cylinderX, cylinderLength, pistonWidth. cbn [add sub neg].
  rewrite !Math_max_Fin. cbn [same].
  split; [reflexivity|]. split; [|split].
  - rewrite Q.max_r by lra. ring.
  - rewrite Q.max_r by lra. ring.
  - intros q Eq Q0 Q1. rewrite <- (Hq q Eq Q0 Q1). exact Ex.
Qed.

(** X19.  In the preview the piston position is a ramp clamped to
    [0, 0.95]: for every frame other than [NaN] the cylinder gets a position
    in that interval, [frame / 600 * 0.95] between frames 0 and 600, so the
    piston face never goes beyond 210.85 and stops short of the rod-end wall. *)
Theorem preview_piston_stops_short (f : number) :
  f <> NaN ->
  exists q x : Q,
    CylinderPreview.getPistonPos f = Fin q /\ 0 <= q /\ q <= 0.95
    /\ currentPistonX (Some (CylinderPreview.getPistonPos f)) = Fin x
    /\ 56 <= x /\ x <= 210.85
    /\ (forall n : Q, f = Fin n -> 0 <= n -> n <= 600 ->
          q == n / 600 * 0.95).
Proof.
  intros Hf.
  assert (C : exists c : Q,
             Math_min (Math_max f (Fin 0)) CylinderPreview.totalFrames = Fin c
             /\ 0 <= c /\ c <= 600
             /\ (forall n : Q, f = Fin n -> 0 <= n -> n <= 600 -> c = n)).
  { unfold CylinderPreview.totalFrames.
    destruct f as [|[|]|n]; [congruence| | |].
    - exists 0. split; [reflexivity|]. repeat split; try lra. discriminate.
    - exists 600. split; [reflexivity|]. repeat split; try lra. discriminate.
    - cbn [Math_max ltb].
      destruct (Qlt_bool n 0) eqn:A; cbn [Math_min ltb].
      + apply Qlt_bool_iff in A. exists 0. split; [reflexivity|].
        repeat split; try lra. intros q' [= <-] H0 H1. exfalso; lra.
      + apply Qlt_bool_false_iff in A. destruct (Qlt_bool 600 n) eqn:B.
        * apply Qlt_bool_iff in B. exists 600. split; [reflexivity|].
          repeat split; try lra. intros q' [= <-] H0 H1. exfalso; lra.
        * apply Qlt_bool_false_iff in B. exists n. split; [reflexivity|].
          repeat split; try lra. intros q' [= <-] _ _. reflexivity. }
  destruct C as (c & E & C0 & C1 & Cn).
  assert (G : CylinderPreview.getPistonPos f = Fin (c / 600 * 0.95)).
  { unfold CylinderPreview.getPistonPos. cbv zeta. rewrite E.
    unfold CylinderPreview.totalFrames. rewrite Fin_div by discriminate.
    reflexivity. }
  assert (R0 : 0 <= c / 600 * 0.95 /\ c / 600 * 0.95 <= 0.95).
  { assert (0 <= c / 600) by (apply Qle_shift_div_l; lra).
    assert (c / 600 <= 1) by (apply Qle_shift_div_r; lra).
    split; lra. }
  destruct (@currentPistonX_finite (Some (CylinderPreview.getPistonPos f)))
    as (x & k & Ex & Xk & K0 & K1 & Kq);
    [rewrite G; discriminate|].
  exists (c / 600 * 0.95), x. split; [exact G|].
  split; [lra|]. split; [lra|]. split; [exact Ex|].
  assert (Ek : k = c / 600 * 0.95).
  { apply Kq; [cbn [default]; exact G|lra|lra]. }
  rewrite Ek in Xk. split; [lra|]. split; [lra|].
  intros n En N0 N1. rewrite (Cn n En N0 N1). reflexivity.
Qed.

Lemma effective_scale (s : Q) :
  0 <= s ->
  exists e : Q,
    (if truthy (Fin s) then Fin s else Fin 80) = Fin e /\ 0 < e
    /\ (0 < s -> e = s).
Proof.
  intros Hs. cbn [truthy]. destruct (Qeq_bool s 0) eqn:E; cbn [negb].
  - apply Qeq_bool_iff in E. exists 80. split; [reflexivity|].
    split; [reflexivity|]. intros H. exfalso; lra.
  - apply Qeq_bool_false_iff in E. exists s. split; [reflexivity|].
    split; [lra|reflexivity].
Qed.


End CylinderMore.

Lemma piston_stays_in_barrel_witness :
  exists x : Q,
    HydraulicCylinder.currentPistonX (Some (Fin 0.25)) = Fin x
    /\ (56 <= x /\ x <= 219 /\ x == 56 + 163 * 0.25)%Q.
Proof.
  assert (Hv : default (Fin 0.5) (Some (Fin 0.25)) <> NaN) by discriminate.
  destruct (@piston_stays_in_barrel (Some (Fin 0.25)) Hv)
    as (x & E & Lo & Hi & _ & _ & _ & Hq).
  exists x. split; [exact E|]. split; [exact Lo|]. split; [exact Hi|].
  apply (Hq 0.25); [reflexivity|discriminate|discriminate].
Defined.

Lemma preview_piston_stops_short_witness :
  exists q x : Q,
    CylinderPreview.getPistonPos (Fin 300) = Fin q
    /\ HydraulicCylinder.currentPistonX
         (Some (CylinderPreview.getPistonPos (Fin 300))) = Fin x
    /\ (q == 300 / 600 * 0.95 /\ x <= 210.85)%Q.
Proof.
  assert (Hf : Fin 300 <> NaN) by discriminate.
  destruct (@preview_piston_stops_short (Fin 300) Hf)
    as (q & x & Eq & _ & _ & Ex & _ & Hi & Hq).
  exists q, x. split; [exact Eq|]. split; [exact Ex|].
  split; [|exact Hi].
  apply (Hq 300); [reflexivity|discriminate|discriminate].
Defined.


(** ** The path parser on well-formed path texts *)

Section PathTextFacts.

Import Text.
Import HydraulicLines.

Lemma uint_digits (d : Decimal.uint) :
  forall acc : nat,
    Forall (fun c => isDigit c = true)
      (list_ascii_of_string (NilEmpty.string_of_uint d))
    /\ fold_left (fun a c => (10 * a + digitValue c)%Z)
         (list_ascii_of_string (NilEmpty.string_of_uint d)) (Z.of_nat acc)
       = Z.of_nat (Nat.of_uint_acc d acc).
Proof.
  induction d as [|d IH|d IH|d IH|d IH|d IH|d IH|d IH|d IH|d IH|d IH];
    intros acc; cbn [NilEmpty.string_of_uint list_ascii_of_string fold_left
                     Nat.of_uint_acc].
  1: split; [constructor|reflexivity].
  all: split; [constructor; [reflexivity|apply (IH acc)]|].
  all: rewrite Nat.tail_mul_spec.
  all: match goal with
    | |- context [Nat.of_uint_acc _ ?a] =>
        rewrite <- (proj2 (IH a)); f_equal
    end.
  all: match goal with
    | |- context [digitValue ?c] =>
        let v := eval vm_compute in (digitValue c) in
        change (digitValue c) with v
    end; lia.

Qed.

Lemma decimal_spec (n : nat) :
  decimal n <> []
  /\ Forall (fun c => isDigit c = true) (decimal n)
  /\ digitsValue (decimal n) = Z.of_nat n.
Proof.
  unfold decimal. split; [|split].
  - destruct n as [|n]; [discriminate|].
    intros E. assert (H := Unsigned.of_to (S n)).
    destruct (Nat.to_uint (S n)); try discriminate.
  - apply (uint_digits (Nat.to_uint n) 0).
  - unfold digitsValue. change 0%Z with (Z.of_nat 0).
    rewrite (proj2 (uint_digits (Nat.to_uint n) 0)).
    f_equal. apply Unsigned.of_to.
Qed.

Lemma span_run (f : ascii -> bool) (run rest : list ascii) :
  Forall (fun c => f c = true) run -> stops f rest ->
  span f (run ++ rest) = (run, rest).
Proof.
  intros Hrun Hrest. induction Hrun as [|c run Hc _ IH]; cbn [app span].
  - destruct rest as [|c rest]; [reflexivity|].
    cbn [stops] in Hrest. cbn [span]. rewrite Hrest. reflexivity.
  - rewrite Hc, IH. reflexivity.
Qed.

Lemma digit_classes (c : ascii) :
  isDigit c = true ->
  isNumChar c = true /\ isSeparator c = false /\ Ascii.eqb c "-" = false.
Proof.
  destruct c as [[] [] [] [] [] [] [] []]; try discriminate;
    intros _; repeat split; reflexivity.
Qed.

Lemma digits_numeric (ds : list ascii) :
  Forall (fun c => isDigit c = true) ds ->
  Forall (fun c => isNumChar c = true) ds.
Proof.
  intros H. eapply Forall_impl; [|exact H].
  intros c Hc. apply (digit_classes c Hc).
Qed.

Lemma parseFloat_decimal (n : nat) :
  parseFloat (decimal n) = Fin (inject_Z (Z.of_nat n)).
Proof.
  destruct (decimal_spec n) as (Hne & Hd & Hv).
  unfold parseFloat.
  destruct (decimal n) as [|c ds] eqn:E; [congruence|].
  assert (Hc : isDigit c = true) by (inversion Hd; assumption).
  destruct (digit_classes c Hc) as (_ & _ & ->).
  rewrite <- (app_nil_r (c :: ds)).
  rewrite (@span_run isDigit (c :: ds) [] Hd I).
  cbv iota. rewrite Hv.
  unfold inject_Z, Qdiv, Qmult, Qplus, Qinv. cbn. 
  f_equal. f_equal. lia.
Qed.

Lemma matchHere_pair (p : nat * nat) (rest : list ascii) :
  stops isNumChar rest ->
  matchHere (pairText p ++ rest)
  = Some (decimal (fst p), decimal (snd p), rest).
Proof.
  intros Hrest. destruct p as [a b]. unfold pairText. cbn [fst snd].
  destruct (decimal_spec a) as (Na & Da & _).
  destruct (decimal_spec b) as (Nb & Db & _).
  unfold matchHere. rewrite <- app_assoc. cbn [app].
  rewrite (@span_run isNumChar (decimal a) _ (digits_numeric Da))
    by reflexivity.
  destruct (decimal a) as [|ca da]; [congruence|].
  destruct (decimal b) as [|cb db] eqn:Eb; [congruence|].
  assert (Hcb : isDigit cb = true) by (inversion Db; assumption).
  destruct (digit_classes cb Hcb) as (_ & Sb & _).
  cbn [span app]. change (isSeparator ",") with true. cbv iota.
  rewrite Sb.
  change (cb :: db ++ rest) with ((cb :: db) ++ rest).
  rewrite (@span_run isNumChar (cb :: db) rest (digits_numeric Db) Hrest).
  reflexivity.
Qed.

Lemma pairText_length (p : nat * nat) : (3 <= List.length (pairText p))%nat.
Proof.
  destruct p as [a b]. unfold pairText. cbn [fst snd].
  destruct (decimal_spec a) as (Na & _), (decimal_spec b) as (Nb & _).
  destruct (decimal a) as [|ca da]; [congruence|].
  destruct (decimal b) as [|cb db]; [congruence|].
  rewrite length_app. cbn [List.length]. lia.
Qed.

Lemma matchAll_from_skip (n : nat) (c : ascii) (s : list ascii) :
  isNumChar c = false ->
  matchAll_from (S n) (c :: s) = matchAll_from n s.
Proof.
  intros Hc. cbn [matchAll_from]. unfold matchHere. cbn [span].
  rewrite Hc. reflexivity.
Qed.

Lemma lineTo_stops (pts : list (nat * nat)) : stops isNumChar (lineTo pts).
Proof. destruct pts; reflexivity. Qed.

Lemma matchAll_lineTo (pts : list (nat * nat)) :
  forall fuel : nat,
    (List.length (lineTo pts) < fuel)%nat ->
    matchAll_from fuel (lineTo pts)
    = map (fun p => (decimal (fst p), decimal (snd p))) pts.
Proof.
  induction pts as [|p pts IH]; intros fuel Hfuel.
  - destruct fuel; reflexivity.
  - cbn [lineTo List.length] in Hfuel. rewrite length_app in Hfuel.
    assert (L := pairText_length p).
    destruct fuel as [|[|[|[|fuel]]]]; try lia.
    cbn [lineTo]. rewrite !matchAll_from_skip by reflexivity.
    cbn [matchAll_from]. rewrite (@matchHere_pair p _ (lineTo_stops pts)).
    cbn [map]. f_equal. apply IH. lia.
Qed.

Lemma matchAll_pathText (pts : list (nat * nat)) :
  matchAll (pathText pts)
  = map (fun p => (decimal (fst p), decimal (snd p))) pts.
Proof.
  unfold matchAll. destruct pts as [|p pts]; [reflexivity|].
  unfold pathText. rewrite list_ascii_of_string_of_list_ascii.
  assert (L := pairText_length p).
  cbn [List.length]. rewrite length_app.
  rewrite !matchAll_from_skip by reflexivity.
  cbn [matchAll_from]. rewrite (@matchHere_pair p _ (lineTo_stops pts)).
  cbn [map]. f_equal. apply matchAll_lineTo. lia.
Qed.

End PathTextFacts.


(** The path of pipe A in CylinderPreview.tsx. *)
Example pathText_pathA :
  HydraulicLines.pathText [(520, 905); (520, 774); (320, 774)]%nat
  = HydraulicLines.pathA HydraulicLines.CylinderPreview_lines.
Proof. vm_compute. reflexivity. Qed.

(** ** The flow dots in time *)

Section DotsLoop.

Import HydraulicLines.
Open Scope Q_scope.

Variable sqrt : number -> number.

Lemma find_ext {A : Type} (f g : A -> bool) (l : list A) :
  (forall a, f a = g a) -> find f l = find g l.
Proof.
  intros H. induction l as [|a l IH]; [reflexivity|].
  cbn [find]. rewrite H, IH. reflexivity.
Qed.

Lemma interpolateWithin_same (s : Segment) (T T' : number) :
  T =~ T' -> samePoint (interpolateWithin s T) (interpolateWithin s T').
Proof.
  intros H. unfold interpolateWithin, samePoint. cbn [x y].
  destruct (length s === Fin 0)%js; [split; reflexivity|].
  split; rewrite H; reflexivity.
Qed.

(** The sampled point depends on [t] only up to the value of [t]. *)
Lemma getPointOnPolyline_same (d : string) (t t' : number) :
  t =~ t' ->
  match getPointOnPolyline sqrt d t, getPointOnPolyline sqrt d t' with
  | Normal p, Normal p' => samePoint p p'
  | Throw_TypeError, Throw_TypeError => True
  | _, _ => False
  end.
Proof.
  intros H. unfold getPointOnPolyline.
  destruct (_ <? 2)%nat; [split; reflexivity|].
  destruct (buildSegments sqrt (parseCoords d)) as [segments totalLength].
  assert (HT : (t * totalLength)%js =~ (t' * totalLength)%js)
    by (rewrite H; reflexivity).
  rewrite (@find_ext _
             (fun s => ((t * totalLength >=? cumulative s)
                        && (t * totalLength <=? cumulative s + length s))%js)
             (fun s => ((t' * totalLength >=? cumulative s)
                        && (t' * totalLength <=? cumulative s + length s))%js)).
  2: { intros s. rewrite HT. reflexivity. }
  destruct (find _ segments) as [s|];
    [|destruct (nth_error segments _) as [s|]; [|exact I]];
    apply interpolateWithin_same; exact HT.
Qed.

Lemma forEach_related {A B : Type} (P : B -> B -> Prop)
    (f g : A -> completion B) (l : list A) :
  (forall a, In a l ->
     match f a, g a with
     | Normal b, Normal b' => P b b'
     | Throw_TypeError, Throw_TypeError => True
     | _, _ => False
     end) ->
  match forEach f l, forEach g l with
  | Normal bs, Normal bs' => Forall2 P bs bs'
  | Throw_TypeError, Throw_TypeError => True
  | _, _ => False
  end.
Proof.
  induction l as [|a l IH]; intros H; [constructor|].
  cbn [forEach bind].
  assert (Ha := H a (or_introl eq_refl)).
  destruct (f a) as [b|], (g a) as [b'|]; try contradiction; [|exact I].
  cbn [bind].
  assert (Hl := IH (fun a' Ha' => H a' (or_intror Ha'))).
  destruct (forEach f l) as [bs|], (forEach g l) as [bs'|];
    try contradiction; [|exact I].
  cbn [bind]. constructor; assumption.
Qed.

Lemma Qfloor_shift (x : Q) (z : Z) :
  Qfloor (x + inject_Z z) = (Qfloor x + z)%Z.
Proof.
  assert (F1 := Qfloor_le x). assert (F2 := Qlt_floor x).
  assert (G1 := Qfloor_le (x + inject_Z z)).
  assert (G2 := Qlt_floor (x + inject_Z z)).
  rewrite inject_Z_plus in F2, G2. change (inject_Z 1) with 1 in F2, G2.
  assert (A : (Qfloor x + z < Qfloor (x + inject_Z z) + 1)%Z).
  { rewrite Zlt_Qlt, !inject_Z_plus. change (inject_Z 1) with 1. lra. }
  assert (B : (Qfloor (x + inject_Z z) < Qfloor x + z + 1)%Z).
  { rewrite Zlt_Qlt, !inject_Z_plus. change (inject_Z 1) with 1. lra. }
  lia.
Qed.

(** The position parameter of a dot: the fractional part of [x]. *)
Lemma wrapped_same (x x' : Q) (z : Z) :
  x' == x + inject_Z z ->
  let t := (Fin x %% Fin 1)%js in
  let t' := (Fin x' %% Fin 1)%js in
  (if (t' <? Fin 0)%js then (t' + Fin 1)%js else t')
  =~ (if (t <? Fin 0)%js then (t + Fin 1)%js else t).
Proof.
  intros E. cbv zeta.
  assert (W := wrap_is_fractional_part x).
  assert (W' := wrap_is_fractional_part x'). cbv zeta in W, W'.
  rewrite W, W'. cbn [same].
  assert (F : Qfloor x' = (Qfloor x + z)%Z).
  { rewrite <- Qfloor_shift. rewrite E. reflexivity. }
  rewrite F, inject_Z_plus, E. ring.
Qed.

Lemma dots_related (props : HydraulicLinesProps) (path : string)
    (f f' s s' : Q) (z : Z) :
  f' * s' == f * s + inject_Z z ->
  match
    forEach (fun i : nat =>
        let initialOffset :=
          (Fin (inject_Z (Z.of_nat i)) / Fin (inject_Z (Z.of_nat 8)))%js in
        let t := ((Fin f' * Fin s' + initialOffset) %% Fin 1)%js in
        let t := if (t <? Fin 0)%js then (t + Fin 1)%js else t in
        pos <- getPointOnPolyline sqrt path t ;;
        Normal {| key := i; cx := x pos; cy := y pos;
                  r := default (Fin 6) (dotSize props) |})
      (seq 0 8),
    forEach (fun i : nat =>
        let initialOffset :=
          (Fin (inject_Z (Z.of_nat i)) / Fin (inject_Z (Z.of_nat 8)))%js in
        let t := ((Fin f * Fin s + initialOffset) %% Fin 1)%js in
        let t := if (t <? Fin 0)%js then (t + Fin 1)%js else t in
        pos <- getPointOnPolyline sqrt path t ;;
        Normal {| key := i; cx := x pos; cy := y pos;
                  r := default (Fin 6) (dotSize props) |})
      (seq 0 8)
  with
  | Normal bs, Normal bs' => Forall2 sameDot bs bs'
  | Throw_TypeError, Throw_TypeError => True
  | _, _ => False
  end.
Proof.
  intros E. apply forEach_related. intros i _. cbv zeta.
  assert (E8 : ~ inject_Z (Z.of_nat 8) == 0) by discriminate.
  rewrite (Fin_div _ E8). cbn [mul add].
  set (o := inject_Z (Z.of_nat i) / inject_Z (Z.of_nat 8)).
  assert (W := @wrapped_same (f * s + o) (f' * s' + o) z ltac:(lra)).
  cbv zeta in W.
  assert (G := @getPointOnPolyline_same path _ _ W).
  destruct (getPointOnPolyline sqrt path _) as [pt'|],
    (getPointOnPolyline sqrt path _) as [pt|]; try contradiction; [|exact I].
  cbn [bind]. destruct G as [Gx Gy].
  split; [reflexivity|]. cbn [cx cy r]. split; [exact Gx|].
  split; [exact Gy|reflexivity].
Qed.

(** The clamped flow ratio for a finite, non-zero [maxFlow]. *)
Lemma normFlow_value (flow m : Q) :
  ~ m == 0 ->
  exists n : Q,
    Math_max (Fin (-1)) (Math_min (Fin 1) (Fin flow / Fin m)) = Fin n
    /\ n == Qmax (-1) (Qmin 1 (flow / m)).
Proof.
  intros Hm. rewrite Fin_div by exact Hm.
  assert (E := Math_max_Fin (-1) (Qmin 1 (flow / m))).
  rewrite <- (Math_min_Fin 1 (flow / m)) in E.
  destruct (Math_max (Fin (-1)) (Math_min (Fin 1) (Fin (flow / m))))
    as [| |n]; cbn [same] in E; try contradiction.
  exists n. split; [reflexivity|exact E].
Qed.

Lemma sameDots_bind (a b : completion (list Dot)) :
  match a, b with
  | Normal bs, Normal bs' => Forall2 sameDot bs bs'
  | Throw_TypeError, Throw_TypeError => True
  | _, _ => False
  end ->
  sameDots (dots <- a ;; Normal (Some dots)) (dots <- b ;; Normal (Some dots)).
Proof. destruct a, b; cbn [bind sameDots]; auto. Qed.


(** X23.  Reversing the flow plays the dot animation backwards: for a
    finite [maxFlow] other than 0, the dots drawn at [frame] for the flow
    [- flow] are the dots drawn at [- frame] for the flow [flow]. *)
Theorem reversed_flow_runs_backwards
    (props : HydraulicLinesProps) (frame flow m : Q) (path : string) :
  default (Fin 100) (maxFlow props) = Fin m -> ~ m == 0 ->
  sameDots
    (renderDots sqrt props (Fin frame) path (Fin (- flow)))
    (renderDots sqrt props (Fin (- frame)) path (Fin flow)).
Proof.
  intros Hmax Hm. unfold renderDots. rewrite Hmax.
  assert (A : (Math_abs (Fin (- flow)) <? Fin 0.01)%js
              = (Math_abs (Fin flow) <? Fin 0.01)%js).
  { cbn [Math_abs ltb]. rewrite Qabs_opp. reflexivity. }
  rewrite A.
  destruct (Math_abs (Fin flow) <? Fin 0.01)%js; [exact I|].
  destruct (@normFlow_value flow m Hm) as (n & -> & En).
  destruct (@normFlow_value (- flow) m Hm) as (n' & -> & En').
  cbn [mul]. apply sameDots_bind.
  apply (@dots_related props path (- frame) frame (n * 0.01) (n' * 0.01) 0).
  assert (Q : - flow / m == - (flow / m)) by (field; exact Hm).
  rewrite Q in En'.
  assert (N : n' == - n).
  { rewrite En, En'.
    destruct (Q.max_spec (-1) (Qmin 1 (flow / m))) as [[? ->]|[? ->]],
      (Q.min_spec 1 (flow / m)) as [[? M1]|[? M1]];
      destruct (Q.max_spec (-1) (Qmin 1 (- (flow / m)))) as [[? ->]|[? ->]],
        (Q.min_spec 1 (- (flow / m))) as [[? M2]|[? M2]];
      rewrite ?M1, ?M2 in *; lra. }
  rewrite N. change (inject_Z 0) with 0. ring.
Qed.

End DotsLoop.


Lemma reversed_flow_runs_backwards_witness :
  let props := HydraulicLines.CylinderPreview_lines in
  HydraulicLines.sameDots
    (HydraulicLines.renderDots HydraulicLines.sqrt_up props
       (Fin 30) (HydraulicLines.pathA props) (Fin (- 50)))
    (HydraulicLines.renderDots HydraulicLines.sqrt_up props
       (Fin (- 30)) (HydraulicLines.pathA props) (Fin 50)).
Proof.
  intros props.
  apply (@reversed_flow_runs_backwards HydraulicLines.sqrt_up props 30 50 100
           (HydraulicLines.pathA props)); [reflexivity|discriminate].
Defined.

(** ** NumberPlane2D: the nice step across decades *)

Section NiceStepScale.

Import NumberPlane.
Open Scope Q_scope.

Lemma floor_log10_unique (q : Q) (k : Z) :
  0 < q -> 10 ^ k <= q -> q < 10 ^ (k + 1) -> floor_log10 q = k.
Proof.
  intros Hq Lo Hi. destruct (floor_log10_spec Hq) as [Lo' Hi'].
  assert (A : (floor_log10 q < k + 1)%Z).
  { apply (@Qpower_lt_compat_l_inv 10); [lra|reflexivity]. }
  assert (B : (k < floor_log10 q + 1)%Z).
  { apply (@Qpower_lt_compat_l_inv 10); [lra|reflexivity]. }
  lia.
Qed.

Lemma getNiceStep_unfold (range ticks : Q) :
  0 < range -> 0 < ticks ->
  let raw := range / ticks in
  let m := 10 ^ floor_log10 raw in
  getNiceStep (Fin range) (Some (Fin ticks))
  = if Qlt_bool (raw / m) 1.5 then Fin (1 * m)
    else if Qlt_bool (raw / m) 3.5 then Fin (2 * m)
    else if Qlt_bool (raw / m) 7.5 then Fin (5 * m)
    else Fin (10 * m).
Proof.
  intros Hr Ht raw m. unfold getNiceStep. cbn [default].
  rewrite Fin_div by lra. fold raw.
  assert (P : 0 < raw) by (apply Qlt_shift_div_l; lra).
  cbn [Math_floor_log10].
  assert (E1 : Qlt_bool raw 0 = false) by (apply Qlt_bool_false_iff; lra).
  assert (E2 : Qeq_bool raw 0 = false) by (apply Qeq_bool_false_iff; lra).
  rewrite E1, E2. cbn [Math_pow10]. rewrite Qfloor_inject_Z. fold m.
  assert (K : 0 < m) by apply ten_pow_pos.
  rewrite Fin_div by lra. reflexivity.
Qed.


End NiceStepScale.


(** ** NumberPlane2D: the plotted points *)

Section PlotsMore.

Import NumberPlane.
Open Scope Q_scope.

Variables (w h x0 x1 y0 y1 : Q) (pad : option Q).

Let p := plane w h x0 x1 y0 y1 pad.
Let padQ : Q := match pad with Some q => q | None => 20 end.

Lemma nth_Fin (l : list Q) (i : nat) :
  (i < List.length l)%nat -> nth i (map Fin l) NaN = Fin (nth i l 0).
Proof.
  intros H. rewrite (nth_indep _ NaN (Fin 0)) by (rewrite length_map; exact H).
  apply (map_nth Fin).
Qed.


End PlotsMore.


(** ** The path sampler and the length of the path *)

Section SamplerArc.

Import HydraulicLines.
Open Scope Q_scope.

Variable sqrt : number -> number.
Hypothesis sqrt_ok : sqrt_spec sqrt.

Lemma lengthUpTo_S (a b : Q * Q) (rest : list (Q * Q)) (i : nat) :
  lengthUpTo sqrt (a :: b :: rest) (S i)
  = Qdist sqrt a b + lengthUpTo sqrt (b :: rest) i.
Proof. reflexivity. Qed.

(** The running sum of a segment is the length of the path up to it. *)
Lemma chain_cumulative (rest : list (Q * Q)) :
  forall (a : Q * Q) (c : Q) (s : QSegment),
    In s (fst (chain sqrt a rest c)) ->
    qlength s = Qdist sqrt (q1 s) (q2 s)
    /\ exists i : nat,
         nth_error (a :: rest) i = Some (q1 s)
         /\ nth_error (a :: rest) (S i) = Some (q2 s)
         /\ qcumulative s == c + lengthUpTo sqrt (a :: rest) i.
Proof.
  induction rest as [|b rest IH]; intros a c s Hin; [destruct Hin|].
  rewrite (chain_cons sqrt) in Hin. cbn [fst] in Hin.
  destruct Hin as [<-|Hin].
  - cbn [q1 q2 qlength qcumulative]. split; [reflexivity|]. exists 0%nat.
    split; [reflexivity|]. split; [reflexivity|]. cbn [lengthUpTo]. ring.
  - destruct (IH b _ s Hin) as (Hl & i & H1 & H2 & H3).
    split; [exact Hl|]. exists (S i). split; [exact H1|]. split; [exact H2|].
    rewrite lengthUpTo_S, H3. ring.
Qed.

Lemma chain_total (rest : list (Q * Q)) :
  forall (a : Q * Q) (c : Q),
    snd (chain sqrt a rest c)
    == c + lengthUpTo sqrt (a :: rest) (List.length rest).
Proof.
  induction rest as [|b rest IH]; intros a c.
  - cbn. ring.
  - rewrite (chain_cons sqrt). cbn [snd List.length].
    rewrite lengthUpTo_S, IH. ring.
Qed.

(** Within a segment that is hit, the interpolation parameter times the
    length of the segment is the distance of the target from its start. *)
Lemma interpolateWithin_arc (s : QSegment) (T : Q) :
  0 <= qlength s ->
  qcumulative s <= T -> T <= qcumulative s + qlength s ->
  exists k : Q,
    0 <= k /\ k <= 1
    /\ samePoint (interpolateWithin (segmentOf s) (Fin T))
         (point (fst (q1 s) + (fst (q2 s) - fst (q1 s)) * k,
                 snd (q1 s) + (snd (q2 s) - snd (q1 s)) * k))
    /\ k * qlength s == T - qcumulative s.
Proof.
  intros Hl H1 H2. unfold interpolateWithin, segmentOf.
  cbn [length cumulative p1 p2 point x y]. rewrite eqb_Fin_zero.
  destruct (Qeq_bool (qlength s) 0) eqn:E.
  - apply Qeq_bool_iff in E.
    exists 0. split; [lra|]. split; [lra|]. split; [split; reflexivity|]. lra.
  - apply Qeq_bool_false_iff in E.
    change (Fin T - Fin (qcumulative s))%js with (Fin (T - qcumulative s)).
    rewrite Fin_div by exact E.
    exists ((T - qcumulative s) / qlength s).
    assert (Hpos : 0 < qlength s) by lra.
    split; [apply Qle_shift_div_l; lra|].
    split; [apply Qle_shift_div_r; lra|].
    split; [split; reflexivity|]. field. exact E.
Qed.


End SamplerArc.

